(** * Campus parking dashboard: occupancy store, pages and classifier

    A shallow embedding of [streamlit_app.py].  The SQLite file is a record
    of three tables, every function that opens a connection is a computation
    over the stored database and the messages shown on the page, and the
    things the program cannot control (whether a connection or a statement
    fails, the clock, the random generator, what the visitor clicks) are
    arguments. *)

From Stdlib Require Import ZArith List String Ascii Bool Lia.
From Stdlib Require Import Sorted Permutation.
From Stdlib Require Import Floats.
Import ListNotations.

Set Warnings "-inexact-float".

Local Open Scope string_scope.
Local Open Scope Z_scope.

(** ** Numbers

    A Python [int] is unbounded; SQLite stores an [INTEGER] in 64 bits and
    a [REAL] as a binary64 float (never a NaN).  A cell of a numeric column,
    and the value Python reads from it, is one or the other. *)

Definition int64_min : Z := -9223372036854775808.
Definition int64_max : Z := 9223372036854775807.

Definition in_int64 (z : Z) : bool := (int64_min <=? z) && (z <=? int64_max).

Inductive number :=
| Int (z : Z)
| Real (f : float).

(** [float(z)]: the nearest binary64 float, ties to even. *)
Definition float_of_int (z : Z) : float :=
  SF2Prim (binary_normalize 53 1024 z 0 false).

(** The integer a float is equal to, if it is equal to one. *)
Definition integer_of_float (f : float) : option Z :=
  match Prim2SF f with
  | S754_zero _ => Some 0
  | S754_finite s m e =>
      let magnitude :=
        if 0 <=? e then Some (Z.pos m * 2 ^ e)
        else if Z.eqb (Z.pos m mod 2 ^ (- e)) 0
             then Some (Z.pos m / 2 ^ (- e))
             else None in
      option_map (fun v => if s then - v else v) magnitude
  | _ => None
  end.

(** What a column of [INTEGER] affinity keeps of a [REAL] result: the
    integer, when the float is one strictly between the least and the
    greatest 64-bit integer; the float otherwise. *)
Definition integer_affinity (f : float) : number :=
  match integer_of_float f with
  | Some z => if (int64_min <? z) && (z <? int64_max) then Int z else Real f
  | None => Real f
  end.

(** SQL [x + 1] stored in such a column: integer addition, and floating
    point addition when the integer one would overflow or [x] is a
    [REAL]. *)
Definition sql_add_one (x : number) : number :=
  match x with
  | Int z =>
      if z <? int64_max then Int (z + 1)
      else integer_affinity (PrimFloat.add (float_of_int z) 1)
  | Real f => integer_affinity (PrimFloat.add f 1)
  end.

(** Python [a - b] for an [int] [a]. *)
Definition py_sub (a : Z) (b : number) : number :=
  match b with
  | Int z => Int (a - z)
  | Real f => Real (PrimFloat.sub (float_of_int a) f)
  end.

(** Python [a > k] for one of the small constants [k] the pages compare
    with. *)
Definition py_gt (a : number) (k : Z) : bool :=
  match a with
  | Int z => z >? k
  | Real f => PrimFloat.ltb (float_of_int k) f
  end.

(** ** Tables

    The three [CREATE TABLE] statements of [initialize_database].  A [REAL]
    column is a binary64 float, a [TIMESTAMP] is a reading of the clock, a
    column without [NOT NULL] is an [option].  An [INTEGER] column that the
    program only fills from Python integers and rowids is a [Z];
    [parking_status.occupied], which it also fills with [occupied + 1], is a
    [number]. *)

Record parking_lot_row := {
  pl_id : Z;
  pl_name : string;
  pl_capacity : Z;
  pl_rate : string;
  pl_location : string;
  pl_latitude : float;
  pl_longitude : float;
  pl_special_info : option string
}.

Record parking_status_row := {
  ps_id : Z;
  ps_lot_id : Z;
  ps_occupied : number;
  ps_last_updated : Z
}.

Record reservation_row := {
  rs_id : Z;
  rs_lot_id : Z;
  rs_permit_type : string;
  rs_license_plate : string;
  rs_arrival_time : string;
  rs_reservation_time : Z;
  rs_user_id : option string
}.

(** A table keeps its rows in rowid order and, because every [id] is
    [INTEGER PRIMARY KEY AUTOINCREMENT], the largest rowid it ever handed
    out (SQLite's [sqlite_sequence]). *)
Record table (row : Type) := {
  rows : list row;
  seq : Z
}.
Arguments rows {row} _.
Arguments seq {row} _.

Record database := {
  parking_lots : table parking_lot_row;
  parking_status : table parking_status_row;
  reservations : table reservation_row
}.

Definition empty_table {row : Type} : table row := {| rows := []; seq := 0 |}.

(** The file right after [initialize_database] created it. *)
Definition fresh_database : database :=
  {| parking_lots := empty_table;
     parking_status := empty_table;
     reservations := empty_table |}.

Definition max_rowid (ids : list Z) : Z := fold_right Z.max 0 ids.

(** The rowid [AUTOINCREMENT] gives to the next inserted row. *)
Definition next_rowid {row : Type} (rowid : row -> Z) (t : table row) : Z :=
  Z.max (seq t) (max_rowid (map rowid (rows t))) + 1.

Definition insert_row {row : Type} (rowid : row -> Z) (mk : Z -> row)
    (t : table row) : table row :=
  let i := next_rowid rowid t in
  {| rows := rows t ++ [mk i]; seq := i |}.

Definition update_rows {row : Type} (f : row -> row) (t : table row)
    : table row :=
  {| rows := map f (rows t); seq := seq t |}.

Definition set_parking_lots (d : database) (t : table parking_lot_row) :=
  {| parking_lots := t;
     parking_status := parking_status d;
     reservations := reservations d |}.

Definition set_parking_status (d : database) (t : table parking_status_row) :=
  {| parking_lots := parking_lots d;
     parking_status := t;
     reservations := reservations d |}.

Definition set_reservations (d : database) (t : table reservation_row) :=
  {| parking_lots := parking_lots d;
     parking_status := parking_status d;
     reservations := t |}.

(** ** The page and the application monad *)

Inductive ui_event :=
| st_error_ev (msg : string)
| st_success_ev (msg : string).

Record world := {
  db : database;
  ui : list ui_event
}.

Definition App (A : Type) : Type := world -> A * world.

Definition ret {A : Type} (a : A) : App A := fun w => (a, w).

Definition bind {A B : Type} (m : App A) (k : A -> App B) : App B :=
  fun w => let (a, w') := m w in k a w'.

Notation "x <- m ;; k" := (bind m (fun x => k))
  (at level 61, m at next level, right associativity).
Notation "m ;;; k" := (bind m (fun _ => k))
  (at level 61, right associativity).

Definition st_error (msg : string) : App unit :=
  fun w => (tt, {| db := db w; ui := ui w ++ [st_error_ev msg] |}).

Definition st_success (msg : string) : App unit :=
  fun w => (tt, {| db := db w; ui := ui w ++ [st_success_ev msg] |}).

(** ** Exceptions *)

(** A computation that may raise; [inl] carries the exception's text. *)
Definition Exc (A : Type) : Type := (string + A)%type.

Definition ebind {A B : Type} (m : Exc A) (k : A -> Exc B) : Exc B :=
  match m with
  | inl e => inl e
  | inr a => k a
  end.

Notation "x <-! m ;; k" := (ebind m (fun x => k))
  (at level 61, m at next level, right associativity).

(** What leaves a [try] block of the database functions: a
    [sqlite3.Error], which their [except Error] catches, or another
    exception, which it does not. *)
Inductive raised :=
| SqliteError (e : string)
| OtherError (e : string).

(** ** Connections and transactions

    What [sqlite3] does on one call is fixed by a [fault]: the connection
    cannot be opened, or the statement number [at_stmt] run on the
    connection (the commit counts as a statement) raises [sqlite3.Error]
    when it is stepped, its parameters being bound before. *)

Inductive fault :=
| NoFault
| ConnectError (e : string)
| SqlError (at_stmt : nat) (e : string).

Record connection := {
  fail_at : option (nat * string)
}.

(** Every call of the program happens at some reading of the clock and under
    some fault. *)
Record env := {
  env_fault : fault;
  env_now : Z
}.

Definition create_connection (f : fault) : App (option connection) :=
  match f with
  | NoFault => ret (Some {| fail_at := None |})
  | SqlError k e => ret (Some {| fail_at := Some (k, e) |})
  | ConnectError e =>
      st_error ("Database connection error: " ++ e) ;;; ret None
  end.

(** Statements run on the connection's working copy of the database; the
    counter is the number of statements run so far.  A statement that raises
    leaves the block. *)
Definition Txn (A : Type) : Type :=
  nat * database -> raised + (A * (nat * database)).

Definition tret {A : Type} (a : A) : Txn A := fun s => inr (a, s).

Definition tbind {A B : Type} (m : Txn A) (k : A -> Txn B) : Txn B :=
  fun s => match m s with
           | inl e => inl e
           | inr (a, s') => k a s'
           end.

Notation "x <~ m ;; k" := (tbind m (fun x => k))
  (at level 61, m at next level, right associativity).
Notation "m ~;; k" := (tbind m (fun _ => k))
  (at level 61, right associativity).

Definition raises (conn : connection) (k : nat) : option string :=
  match fail_at conn with
  | Some (k', e) => if Nat.eqb k k' then Some e else None
  | None => None
  end.

(** [cursor.execute(sql, params)].  The Python integers among the
    parameters are bound first: one outside 64 bits raises [OverflowError].
    Then the statement is stepped: the fault may strike, or the statement
    itself may fail. *)
Definition execute {A : Type} (conn : connection) (params : list Z)
    (stmt : database -> string + A * database) : Txn A :=
  fun s =>
    if forallb in_int64 params then
      match raises conn (fst s) with
      | Some e => inl (SqliteError e)
      | None =>
          match stmt (snd s) with
          | inl e => inl (SqliteError e)
          | inr (a, d') => inr (a, (S (fst s), d'))
          end
      end
    else inl (OtherError "OverflowError").

Definition query {A : Type} (conn : connection) (params : list Z)
    (q : database -> A) : Txn A :=
  execute conn params (fun d => inr (q d, d)).

Definition commit (conn : connection) : Txn unit :=
  execute conn [] (fun d => inr (tt, d)).

(** [try: ... conn.commit() ... finally: conn.close()]: the block's writes
    reach the file when it gets through its commit; closing a connection
    whose block raised discards them. *)
Definition run_txn {A : Type} (body : Txn A) : App (raised + A) :=
  fun w =>
    match body (0%nat, db w) with
    | inl e => (inl e, w)
    | inr (a, (_, d')) => (inr a, {| db := d'; ui := ui w |})
    end.

(** ** Database operations *)

(** One entry of the list [get_parking_lots] returns (a Python dict). *)
Record lot := {
  lot_id : Z;
  lot_name : string;
  lot_capacity : Z;
  lot_rate : string;
  lot_location : string;
  lot_coords : float * float;
  lot_special : option string;
  lot_occupied : number;
  lot_last_updated : Z
}.

(** [FROM parking_lots pl LEFT JOIN parking_status ps ON pl.id = ps.lot_id]:
    a lot comes once for each of its status rows, and once with NULLs when
    it has none. *)
Definition status_rows_of (lid : Z) (d : database) : list parking_status_row :=
  filter (fun ps => Z.eqb (ps_lot_id ps) lid) (rows (parking_status d)).

Definition left_join (d : database)
    : list (parking_lot_row * option parking_status_row) :=
  flat_map
    (fun pl =>
       match status_rows_of (pl_id pl) d with
       | [] => [(pl, None)]
       | matching => map (fun ps => (pl, Some ps)) matching
       end)
    (rows (parking_lots d)).

(** [ORDER BY pl.name], bytewise as SQLite's default collation does; rows
    with equal names keep their order. *)
Fixpoint insert_by_name (x : parking_lot_row * option parking_status_row)
    (l : list (parking_lot_row * option parking_status_row)) :=
  match l with
  | [] => [x]
  | y :: l' =>
      if String.leb (pl_name (fst x)) (pl_name (fst y))
      then x :: y :: l'
      else y :: insert_by_name x l'
  end.

Definition order_by_name
    (l : list (parking_lot_row * option parking_status_row)) :=
  fold_right insert_by_name [] l.

Definition select_lots_with_status (d : database) :=
  order_by_name (left_join d).

(** The dict built for one fetched row; [now] is [datetime.now()]. *)
Definition row_to_lot (now : Z)
    (r : parking_lot_row * option parking_status_row) : lot :=
  let (pl, ps) := r in
  {| lot_id := pl_id pl;
     lot_name := pl_name pl;
     lot_capacity := pl_capacity pl;
     lot_rate := pl_rate pl;
     lot_location := pl_location pl;
     lot_coords := (pl_latitude pl, pl_longitude pl);
     lot_special := pl_special_info pl;
     lot_occupied :=
       match ps with Some s => ps_occupied s | None => Int 0 end;
     lot_last_updated :=
       match ps with Some s => ps_last_updated s | None => now end |}.

(** What [get_parking_lots] returns when nothing fails. *)
Definition lots_view (now : Z) (d : database) : list lot :=
  map (row_to_lot now) (select_lots_with_status d).

(** The query binds no parameter, so that only a [sqlite3.Error] can leave
    its block. *)
Definition get_parking_lots (e : env) : App (list lot) :=
  conn <- create_connection (env_fault e) ;;
  match conn with
  | Some conn =>
      r <- run_txn
             (fetched <~ query conn [] select_lots_with_status ;;
              tret (map (row_to_lot (env_now e)) fetched)) ;;
      match r with
      | inr lots => ret lots
      | inl (SqliteError err) =>
          st_error ("Error fetching parking lots: " ++ err) ;;; ret []
      | inl (OtherError _) => ret []
      end
  | None => ret []
  end.

(** [SELECT id FROM parking_status WHERE lot_id = ?] *)
Definition select_status_ids (lid : Z) (d : database) : list Z :=
  map ps_id (status_rows_of lid d).

Definition fetchone {A : Type} (result : list A) : option A := hd_error result.

(** [UPDATE parking_status SET occupied = ?, last_updated = ? WHERE lot_id = ?];
    the bound Python integer is stored as an [INTEGER]. *)
Definition update_status (lid occupied now : Z) (d : database) : database :=
  set_parking_status d
    (update_rows
       (fun ps =>
          if Z.eqb (ps_lot_id ps) lid
          then {| ps_id := ps_id ps; ps_lot_id := ps_lot_id ps;
                  ps_occupied := Int occupied; ps_last_updated := now |}
          else ps)
       (parking_status d)).

(** [INSERT INTO parking_status (lot_id, occupied, last_updated) VALUES (?, ?, ?)] *)
Definition insert_status (lid occupied now : Z) (d : database) : database :=
  set_parking_status d
    (insert_row ps_id
       (fun i => {| ps_id := i; ps_lot_id := lid;
                    ps_occupied := Int occupied; ps_last_updated := now |})
       (parking_status d)).

(** An [INSERT] into a table whose key is [AUTOINCREMENT] fails with
    [SQLITE_FULL] once the greatest rowid has been handed out. *)
Definition rowid_available {row : Type} (rowid : row -> Z) (t : table row)
    : bool :=
  next_rowid rowid t <=? int64_max.

Definition insert_into {row : Type} (rowid : row -> Z)
    (tbl : database -> table row) (ins : database -> database) (d : database)
    : string + unit * database :=
  if rowid_available rowid (tbl d) then inr (tt, ins d)
  else inl "database or disk is full".

(** [except Error] catches a [sqlite3.Error] and the function returns
    [False]; an [OverflowError] raised while binding passes through
    [finally: conn.close()] to the caller ([inl]). *)
Definition update_parking_status (e : env) (lid occupied : Z)
    : App (Exc bool) :=
  conn <- create_connection (env_fault e) ;;
  match conn with
  | Some conn =>
      r <- run_txn
             (found <~ query conn [lid]
                         (fun d => fetchone (select_status_ids lid d)) ;;
              match found with
              | Some _ =>
                  execute conn [occupied; lid]
                    (fun d =>
                       inr (tt, update_status lid occupied (env_now e) d))
              | None =>
                  execute conn [lid; occupied]
                    (insert_into ps_id parking_status
                       (insert_status lid occupied (env_now e)))
              end ~;;
              commit conn ~;;
              tret true) ;;
      match r with
      | inr ok => ret (inr ok)
      | inl (SqliteError err) =>
          st_error ("Error updating parking status: " ++ err) ;;;
          ret (inr false)
      | inl (OtherError exn) => ret (inl exn)
      end
  | None => ret (inr false)
  end.

(** [INSERT INTO reservations (lot_id, permit_type, license_plate,
    arrival_time, reservation_time, user_id) VALUES (?, ?, ?, ?, ?, ?)] *)
Definition insert_reservation (lid : Z) (permit_type license_plate
    arrival_time : string) (now : Z) (user_id : string) (d : database)
    : database :=
  set_reservations d
    (insert_row rs_id
       (fun i => {| rs_id := i; rs_lot_id := lid;
                    rs_permit_type := permit_type;
                    rs_license_plate := license_plate;
                    rs_arrival_time := arrival_time;
                    rs_reservation_time := now;
                    rs_user_id := Some user_id |})
       (reservations d)).

(** [UPDATE parking_status SET occupied = occupied + 1 WHERE lot_id = ?] *)
Definition increment_occupied (lid : Z) (d : database) : database :=
  set_parking_status d
    (update_rows
       (fun ps =>
          if Z.eqb (ps_lot_id ps) lid
          then {| ps_id := ps_id ps; ps_lot_id := ps_lot_id ps;
                  ps_occupied := sql_add_one (ps_occupied ps);
                  ps_last_updated := ps_last_updated ps |}
          else ps)
       (parking_status d)).

Definition add_reservation (e : env) (lid : Z) (permit_type license_plate
    arrival_time user_id : string) : App (Exc bool) :=
  conn <- create_connection (env_fault e) ;;
  match conn with
  | Some conn =>
      r <- run_txn
             (execute conn [lid]
                (insert_into rs_id reservations
                   (insert_reservation lid permit_type license_plate
                      arrival_time (env_now e) user_id)) ~;;
              execute conn [lid]
                (fun d => inr (tt, increment_occupied lid d)) ~;;
              commit conn ~;;
              tret true) ;;
      match r with
      | inr ok => ret (inr ok)
      | inl (SqliteError err) =>
          st_error ("Error creating reservation: " ++ err) ;;; ret (inr false)
      | inl (OtherError exn) => ret (inl exn)
      end
  | None => ret (inr false)
  end.

(** ** Sample data *)

Definition sample_lots
    : list (string * Z * string * string * float * float * string) :=
  [ ("Great Hall", 31, "0.70/hr", "Near Main Entrance",
     37.7749%float, (-122.4194)%float, "Visitor Parking");
    ("Faculty of Science", 200, "1.00/hr", "MLT and SLT Buildings",
     37.7755%float, (-122.4180)%float, "Students/Lecturers");
    ("Student Union Lot", 40, "1.00/hr", "Next to Student Center",
     37.7735%float, (-122.4210)%float, "Student Permits");
    ("Athletics Field Parking", 150, "1.50/hr", "Near Sports Complex",
     37.7760%float, (-122.4200)%float, "Event Parking") ].

(** [INSERT INTO parking_lots (name, capacity, rate, location, latitude,
    longitude, special_info) VALUES (?, ?, ?, ?, ?, ?, ?)] *)
Definition insert_lot
    (values : string * Z * string * string * float * float * string)
    (d : database) : database :=
  let '(name, capacity, rate, location, latitude, longitude, special_info) :=
    values in
  set_parking_lots d
    (insert_row pl_id
       (fun i => {| pl_id := i; pl_name := name; pl_capacity := capacity;
                    pl_rate := rate; pl_location := location;
                    pl_latitude := latitude; pl_longitude := longitude;
                    pl_special_info := Some special_info |})
       (parking_lots d)).

(** The Python integers among the values of one sample lot. *)
Definition sample_integers
    (values : string * Z * string * string * float * float * string)
    : list Z :=
  let '(_, capacity, _, _, _, _, _) := values in [capacity].

(** [cursor.executemany(sql, seq)]: the statement once for each element, up
    to the first that fails. *)
Fixpoint executemany {A : Type}
    (stmt : A -> database -> string + unit * database)
    (params : list A) (d : database) : string + unit * database :=
  match params with
  | [] => inr (tt, d)
  | p :: rest =>
      match stmt p d with
      | inl e => inl e
      | inr (_, d') => executemany stmt rest d'
      end
  end.

(** [SELECT COUNT( * ) FROM parking_lots] *)
Definition count_lots (d : database) : Z :=
  Z.of_nat (List.length (rows (parking_lots d))).

(** [SELECT id FROM parking_lots] *)
Definition select_lot_ids (d : database) : list Z :=
  map pl_id (rows (parking_lots d)).

(** [random.randint(a, b)]: an integer of [a..b], both ends included, picked
    by the generator's next raw output [r]; an empty range raises
    [ValueError]. *)
Definition randint (a b : Z) (r : Z) : option Z :=
  if a <=? b then Some (a + r mod (b - a + 1)) else None.

(** A call of [update_parking_status] made while another connection holds
    the file's write lock: its [SELECT] reads, and its [UPDATE] or [INSERT],
    the second statement, is refused once the busy timeout has passed,
    unless the call has failed before. *)
Definition while_write_locked (e : env) : env :=
  {| env_fault :=
       match env_fault e with
       | ConnectError err => ConnectError err
       | SqlError 0 err => SqlError 0 err
       | SqlError 1 err => SqlError 1 err
       | _ => SqlError 1 "database is locked"
       end;
     env_now := env_now e |}.

(** The loop over the fetched ids.  It runs between the [INSERT] of the
    sample lots and their commit, so that every call of
    [update_parking_status] in it finds the file locked by the enclosing
    connection.  The [i]-th call runs under [envs i], the [i]-th draw
    consumes [entropy i].  [inl] is an exception that nothing catches. *)
Fixpoint seed_occupied (envs : nat -> env) (entropy : nat -> Z) (i : nat)
    (ids : list Z) : App (Exc unit) :=
  match ids with
  | [] => ret (inr tt)
  | lid :: rest =>
      match randint (lid * 10) (lid * 20) (entropy i) with
      | Some occupied =>
          r <- update_parking_status (while_write_locked (envs i)) lid
                 occupied ;;
          match r with
          | inr _ => seed_occupied envs entropy (S i) rest
          | inl exn => ret (inl exn)
          end
      | None => ret (inl "ValueError")
      end
  end.

(** The block of [initialize_sample_data] up to the loop. *)
Definition seed_lots (conn : connection) : Txn (option (list Z)) :=
  n <~ query conn [] count_lots ;;
  if Z.eqb n 0 then
    execute conn (flat_map sample_integers sample_lots)
      (executemany
         (fun values => insert_into pl_id parking_lots (insert_lot values))
         sample_lots) ~;;
    ids <~ query conn [] select_lot_ids ;;
    tret (Some ids)
  else tret None.

(** The database with the sample lots inserted. *)
Definition with_sample_lots (d : database) : database :=
  fold_left (fun d' values => insert_lot values d') sample_lots d.

(** The sample lots are written on this function's own connection and reach
    the file at its final commit; each [update_parking_status] in between
    opens and closes a connection of its own.  An exception of the loop
    that is no [sqlite3.Error] leaves the function, whose connection is
    closed without a commit. *)
Definition initialize_sample_data (f : fault) (envs : nat -> env)
    (entropy : nat -> Z) : App (Exc unit) :=
  conn <- create_connection f ;;
  match conn with
  | None => ret (inr tt)
  | Some conn =>
      fun w =>
        let on_error err : Exc unit * world :=
          (st_error ("Error initializing sample data: " ++ err) ;;;
           ret (inr tt)) w in
        match seed_lots conn (0%nat, db w) with
        | inl (SqliteError err) => on_error err
        | inl (OtherError exn) => (inl exn, w)
        | inr (None, _) => (inr tt, w)
        | inr (Some ids, s) =>
            let (r, w') := seed_occupied envs entropy 0 ids w in
            match r with
            | inl exn => (inl exn, w')
            | inr _ =>
                match commit conn s with
                | inl (SqliteError err) =>
                    (st_error ("Error initializing sample data: " ++ err) ;;;
                     ret (inr tt)) w'
                | inl (OtherError exn) => (inl exn, w')
                | inr (_, (_, d')) =>
                    (inr tt,
                     {| db := set_parking_lots (db w') (parking_lots d');
                        ui := ui w' |})
                end
            end
        end
  end.

(** ** Pages *)

(** [lot['capacity'] - lot['occupied']], as [show_parking_map],
    [parking_lot_card] and [main] compute it. *)
Definition available (l : lot) : number :=
  py_sub (lot_capacity l) (lot_occupied l).

(** One row of the map's data frame. *)
Record map_point := {
  mp_Lot : string;
  mp_Latitude : float;
  mp_Longitude : float;
  mp_Available : number;
  mp_Capacity : Z;
  mp_Rate : string;
  mp_Status : string
}.

Definition map_row (l : lot) : map_point :=
  let available := py_sub (lot_capacity l) (lot_occupied l) in
  {| mp_Lot := lot_name l;
     mp_Latitude := fst (lot_coords l);
     mp_Longitude := snd (lot_coords l);
     mp_Available := available;
     mp_Capacity := lot_capacity l;
     mp_Rate := lot_rate l;
     mp_Status :=
       if py_gt available 20 then "🟢 Good"
       else if py_gt available 0 then "🟡 Limited"
       else "🔴 Full" |}.

(** The rows [show_parking_map] plots. *)
Definition show_parking_map (e : env) : App (list map_point) :=
  parking_data <- get_parking_lots e ;;
  ret (map map_row parking_data).

(** [st.selectbox(options=..., index=0)]: the option the visitor picked,
    the first one by default, [None] when there is nothing to pick from. *)
Definition st_selectbox {A : Type} (options : list A) (choice : nat)
    : option A :=
  match options with
  | [] => None
  | first :: _ => Some (nth choice options first)
  end.

Record reservation_form := {
  permit_type : string;
  license_plate : string;
  arrival_time : string
}.

(** The "Reserve Spot" view of [main].  [submitted] is the form's content in
    a run where "Reserve Spot" was pressed.  [inl] is an exception that
    ends the run. *)
Definition reserve_view (e_list : env) (choice : nat)
    (submitted : option reservation_form) (e_res : env)
    : App (Exc unit) :=
  parking_lots <- get_parking_lots e_list ;;
  match st_selectbox parking_lots choice with
  | None => ret (inl "TypeError")
  | Some selected_lot =>
      let available :=
        py_sub (lot_capacity selected_lot) (lot_occupied selected_lot) in
      if py_gt available 0 then
        match submitted with
        | Some form =>
            ok <- add_reservation e_res (lot_id selected_lot)
                    (permit_type form) (license_plate form)
                    (arrival_time form) "guest" ;;
            match ok with
            | inr true => st_success "Reservation confirmed!" ;;; ret (inr tt)
            | inr false => ret (inr tt)
            | inl exn => ret (inl exn)
            end
        | None => ret (inr tt)
        end
      else st_error "No available spots in this lot" ;;; ret (inr tt)
  end.

(** The "Parking Status" tab of the admin view.  [clicked] is the position
    of the lot whose "Update" button was pressed and the number its
    [st.number_input(min_value=0, max_value=lot['capacity'], ...)] holds.
    [inl] is an exception that ends the run. *)
Definition admin_view (e_list : env) (password : string)
    (clicked : option (nat * Z)) (e_upd : env) : App (Exc unit) :=
  parking_lots <- get_parking_lots e_list ;;
  if negb (String.eqb password "campus123") then
    st_error "Incorrect password" ;;; ret (inr tt)
  else
    st_success "Admin access granted" ;;;
    match clicked with
    | Some (i, new_occupied) =>
        match nth_error parking_lots i with
        | Some l =>
            ok <- update_parking_status e_upd (lot_id l) new_occupied ;;
            match ok with
            | inr true => st_success "Updated successfully!" ;;; ret (inr tt)
            | inr false => ret (inr tt)
            | inl exn => ret (inl exn)
            end
        | None => ret (inr tt)
        end
    | None => ret (inr tt)
    end.

(** ** Parking spot detection *)

(** [try: body except Exception as e: handler] *)
Definition try_except {A : Type} (body : Exc A) (handler : string -> App A)
    : App A :=
  match body with
  | inr a => ret a
  | inl e => handler e
  end.

(** [seq[i]] *)
Definition getitem {A : Type} (l : list A) (i : nat) : Exc A :=
  match nth_error l i with
  | Some a => inr a
  | None => inl "IndexError"
  end.

Section Classifier.

(** Keras and NumPy: pictures, arrays, and the functions the program calls
    on them.  [load_img] raises on a file it cannot decode. *)
Variable image : Type.
Variable ndarray : Type.
Variable load_img : string -> Z * Z -> Exc image.
Variable img_to_array : image -> ndarray.
Variable expand_dims : ndarray -> Z -> ndarray.

(** A loaded model is its [predict]; [load_model] gives [None] when the
    model file cannot be loaded. *)
Definition keras_model : Type := ndarray -> Exc (list (list float)).

Definition predict (model : option keras_model) (x : ndarray)
    : Exc (list (list float)) :=
  match model with
  | Some m => m x
  | None => inl "AttributeError"
  end.

Definition classify_parking_spot (img_path : string)
    (model : option keras_model) : App (string * float) :=
  try_except
    (img <-! load_img img_path (180, 180) ;;
     let img_array := img_to_array img in
     let img_array := expand_dims img_array 0 in
     predictions <-! predict model img_array ;;
     first <-! getitem predictions 0 ;;
     score <-! getitem first 0 ;;
     inr (if PrimFloat.ltb 0.5 score then "Occupied" else "Empty", score))
    (fun e =>
       st_error ("Error classifying image: " ++ e) ;;;
       ret ("Error", 0%float)).

End Classifier.

(** ** The occupancy invariant and runs of page actions *)

(** [0 <= occupied <= capacity], for a count that is an integer. *)
Definition lot_invariant (l : lot) : Prop :=
  match lot_occupied l with
  | Int occupied => 0 <= occupied <= lot_capacity l
  | Real _ => False
  end.

(** Every lot the program lists has [0 <= occupied <= capacity]. *)
Definition occupancy_invariant (d : database) : Prop :=
  forall now l, In l (lots_view now d) -> lot_invariant l.

(** What the schema and the data model fix: [parking_lots.id] is a primary
    key, and a lot has at most one status row. *)
Definition well_formed (d : database) : Prop :=
  NoDup (map pl_id (rows (parking_lots d))) /\
  NoDup (map ps_lot_id (rows (parking_status d))).

(** The capacities are integers SQLite can hold. *)
Definition capacities_stored (d : database) : Prop :=
  forall pl, In pl (rows (parking_lots d)) -> pl_capacity pl <= int64_max.

(** The same as checks that compute. *)
Definition lot_invariantb (l : lot) : bool :=
  match lot_occupied l with
  | Int occupied => (0 <=? occupied) && (occupied <=? lot_capacity l)
  | Real _ => false
  end.

Definition occupancy_invariantb (d : database) : bool :=
  forallb lot_invariantb (lots_view 0 d).

Fixpoint distinct (l : list Z) : bool :=
  match l with
  | [] => true
  | x :: rest => negb (existsb (Z.eqb x) rest) && distinct rest
  end.

Definition well_formedb (d : database) : bool :=
  distinct (map pl_id (rows (parking_lots d))) &&
  distinct (map ps_lot_id (rows (parking_status d))).

Definition capacities_storedb (d : database) : bool :=
  forallb (fun pl => pl_capacity pl <=? int64_max) (rows (parking_lots d)).

(** The database a successful [update_parking_status] commits. *)
Definition upsert_status (lid occupied now : Z) (d : database) : database :=
  match fetchone (select_status_ids lid d) with
  | Some _ => update_status lid occupied now d
  | None => insert_status lid occupied now d
  end.

(** The database a successful [add_reservation] commits for the form of
    the reserve view. *)
Definition reserved (lid : Z) (form : reservation_form) (now : Z)
    (d : database) : database :=
  increment_occupied lid
    (insert_reservation lid (permit_type form) (license_plate form)
       (arrival_time form) now "guest" d).

(** The two operations that change occupancy, as the pages offer them: a
    use of the reserve view, or of the admin view's status tab. *)
Inductive action :=
| Reserve (e_list : env) (choice : nat)
    (submitted : option reservation_form) (e_res : env)
| SetOccupied (e_list : env) (password : string)
    (clicked : option (nat * Z)) (e_upd : env).

Definition run_action (a : action) (w : world) : world :=
  match a with
  | Reserve e_list choice submitted e_res =>
      snd (reserve_view e_list choice submitted e_res w)
  | SetOccupied e_list password clicked e_upd =>
      snd (admin_view e_list password clicked e_upd w)
  end.

(** The worlds after each action of a sequence, in order. *)
Fixpoint states_after (acts : list action) (w : world) : list world :=
  match acts with
  | [] => []
  | a :: rest => let w' := run_action a w in w' :: states_after rest w'
  end.

(** The number an admin action carries is one its number input allows:
    between [min_value=0] and [max_value=lot['capacity']] of the lot it was
    drawn for. *)
Definition within_input_bounds (a : action) (w : world) : Prop :=
  match a with
  | SetOccupied e_list _ (Some (i, new_occupied)) _ =>
      forall l, nth_error (fst (get_parking_lots e_list w)) i = Some l ->
                0 <= new_occupied <= lot_capacity l
  | _ => True
  end.

Fixpoint inputs_within_bounds (acts : list action) (w : world) : Prop :=
  match acts with
  | [] => True
  | a :: rest =>
      within_input_bounds a w /\ inputs_within_bounds rest (run_action a w)
  end.

(** ** The states the pages reach *)

Definition fresh_world : world := {| db := fresh_database; ui := [] |}.

(** Every run of the script seeds, if there is nothing yet, and then shows
    one view; the database starts with the three empty tables of
    [initialize_database].  The numbers an admin sends are numbers the
    number input holds. *)
Inductive reachable : world -> Prop :=
| reachable_fresh : reachable fresh_world
| reachable_seeding f envs entropy w :
    reachable w ->
    reachable (snd (initialize_sample_data f envs entropy w))
| reachable_action a w :
    reachable w ->
    within_input_bounds a w ->
    reachable (run_action a w).



(** ** Concrete states used in the examples below *)

Definition no_fault (now : Z) : env := {| env_fault := NoFault; env_now := now |}.

Definition locked (now : Z) : env :=
  {| env_fault := SqlError 1 "database is locked"; env_now := now |}.

(** Seeding a fresh file: the sample lots are stored, the nested status
    writes are refused, none has a status row. *)
Definition seeded_without_status : world :=
  snd (initialize_sample_data NoFault (fun i => locked (Z.of_nat i))
         (fun _ => 0) fresh_world).

(** The admin sets the lot at position [i] of the listing to [n]. *)
Definition admin_sets (i : nat) (n : Z) (now : Z) (w : world) : world :=
  snd (admin_view (no_fault now) "campus123" (Some (i, n)) (no_fault now) w).

(** After seeding, the admin has entered a count for each lot: 10 for the
    Great Hall, 20 for the Faculty of Science, 30 for the Student Union Lot
    and 40 for the Athletics Field Parking. *)
Definition stocked : world :=
  admin_sets 0 40 3
    (admin_sets 3 30 2
       (admin_sets 1 20 1
          (admin_sets 2 10 0 seeded_without_status))).

(** The same with the Student Union Lot filled to its capacity of 40. *)
Definition student_union_full : world := admin_sets 3 40 4 stocked.

(** A lot with the given capacity and occupied count. *)
Definition example_lot (capacity occupied : Z) : lot :=
  {| lot_id := 1; lot_name := "Great Hall"; lot_capacity := capacity;
     lot_rate := "0.70/hr"; lot_location := "Near Main Entrance";
     lot_coords := (37.7749%float, (-122.4194)%float);
     lot_special := Some "Visitor Parking";
     lot_occupied := Int occupied; lot_last_updated := 0 |}.

Definition sample_form : reservation_form :=
  {| permit_type := "Student"; license_plate := "ABC123";
     arrival_time := "09:30" |}.

(** Stand-ins for Keras in the examples: a picture is its file name, files
    named "blob" do not decode, and the stub model answers one score. *)
Definition stub_load_img (img_path : string) (target_size : Z * Z)
    : Exc string :=
  if String.eqb img_path "blob" then inl "UnidentifiedImageError"
  else inr img_path.

Definition stub_model (score : float) : keras_model string :=
  fun _ => inr [[score]].

Definition stub_classify (img_path : string)
    (model : option (keras_model string)) : App (string * float) :=
  classify_parking_spot string string stub_load_img (fun x => x)
    (fun x _ => x) img_path model.

(** ** More of the pages and of the storage *)

(** Whether a call whose block runs [n] statements (the commit included)
    fails under a fault. *)
Definition fault_hits (n : nat) (f : fault) : bool :=
  match f with
  | NoFault => false
  | ConnectError _ => true
  | SqlError k _ => Nat.ltb k n
  end.

(** The message a failing call shows: the connection error as
    [create_connection] words it, or the statement error after the calling
    function's own prefix. *)
Definition fault_message (prefix : string) (f : fault) : string :=
  match f with
  | NoFault => ""
  | ConnectError e => "Database connection error: " ++ e
  | SqlError _ e => prefix ++ e
  end.

Definition has_status_row (lid : Z) (d : database) : bool :=
  match status_rows_of lid d with
  | [] => false
  | _ :: _ => true
  end.

(** Whether the write of [update_parking_status] can go through: the two
    integers fit in 64 bits and, for a lot without a status row, a rowid is
    left. *)
Definition update_writes (lid occupied : Z) (d : database) : bool :=
  in_int64 lid && in_int64 occupied &&
  (has_status_row lid d || rowid_available ps_id (parking_status d)).

(** A listed lot with other values in the two columns that come from
    [parking_status]. *)
Definition with_status (l : lot) (occupied : number) (last_updated : Z)
    : lot :=
  {| lot_id := lot_id l;
     lot_name := lot_name l;
     lot_capacity := lot_capacity l;
     lot_rate := lot_rate l;
     lot_location := lot_location l;
     lot_coords := lot_coords l;
     lot_special := lot_special l;
     lot_occupied := occupied;
     lot_last_updated := last_updated |}.

(** The reserve view used again and again on the same choice with the same
    form, each time with "Reserve Spot" pressed and no fault; [times] gives
    the clock readings of the listing and of the reservation of each use. *)
Definition reserve_repeatedly (times : list (Z * Z)) (choice : nat)
    (form : reservation_form) (w : world) : world :=
  fold_left
    (fun w' t =>
       snd (reserve_view (no_fault (fst t)) choice (Some form)
              (no_fault (snd t)) w'))
    times w.

(** Primary keys: no two rows of a table share their [id]. *)
Definition keys_unique (d : database) : Prop :=
  NoDup (map pl_id (rows (parking_lots d))) /\
  NoDup (map ps_id (rows (parking_status d))) /\
  NoDup (map rs_id (rows (reservations d))).

(** No rowid of the table is above the table's [sqlite_sequence] entry. *)
Definition seq_covers {row : Type} (rowid : row -> Z) (t : table row) : Prop :=
  forall r, In r (rows t) -> rowid r <= seq t.

Section Detection.

Variable image : Type.
Variable ndarray : Type.
Variable load_img : string -> Z * Z -> Exc image.
Variable img_to_array : image -> ndarray.
Variable expand_dims : ndarray -> Z -> ndarray.

(** [f"{confidence*100:.1f}"] *)
Variable percent : float -> string.

(** "Detection Results", as the lot card and the admin view's "Spot
    Detection" tab show them for the saved upload. *)
Definition show_detection (image_path : string)
    (model : option (keras_model ndarray)) : App unit :=
  r <- classify_parking_spot image ndarray load_img img_to_array expand_dims
         image_path model ;;
  let (classification, confidence) := r in
  if String.eqb classification "Occupied" then
    st_error ("🚗 Occupied (" ++ percent confidence ++ "% confidence)")
  else
    st_success ("🅿️ Empty (" ++ percent confidence ++ "% confidence)").

End Detection.

(** The order [ORDER BY pl.name] puts two joined rows in, and the same for
    two listed lots. *)
Definition by_name (x y : parking_lot_row * option parking_status_row)
    : Prop :=
  String.leb (pl_name (fst x)) (pl_name (fst y)) = true.

Definition lots_by_name (a b : lot) : Prop :=
  String.leb (lot_name a) (lot_name b) = true.

(** * Properties *)

Arguments in_int64 : simpl never.
Arguments rowid_available : simpl never.

(** ** The listing *)

Lemma In_insert_by_name x y l :
  In x (insert_by_name y l) <-> x = y \/ In x l.
Proof.
  induction l as [|z l IH]; simpl.
  - intuition congruence.
  - destruct (String.leb _ _); simpl; rewrite ?IH; intuition congruence.
Qed.

Lemma In_order_by_name x l : In x (order_by_name l) <-> In x l.
Proof.
  induction l as [|y l IH]; simpl; [tauto|].
  rewrite In_insert_by_name, IH. intuition congruence.
Qed.

Lemma In_status_rows_of ps lid d :
  In ps (status_rows_of lid d) <->
  In ps (rows (parking_status d)) /\ ps_lot_id ps = lid.
Proof.
  unfold status_rows_of. rewrite filter_In, Z.eqb_eq. tauto.
Qed.

Lemma status_rows_of_nil lid d :
  status_rows_of lid d = [] <->
  forall ps, In ps (rows (parking_status d)) -> ps_lot_id ps <> lid.
Proof.
  split.
  - intros E ps Hin Hid.
    assert (H : In ps (status_rows_of lid d)) by (apply In_status_rows_of; auto).
    rewrite E in H. exact H.
  - intros H. destruct (status_rows_of lid d) as [|ps l] eqn:E; [reflexivity|].
    assert (Hin : In ps (status_rows_of lid d)) by (rewrite E; left; reflexivity).
    apply In_status_rows_of in Hin. destruct Hin as [Hin Hid].
    exfalso. exact (H ps Hin Hid).
Qed.

(** A joined row is a lot with one of its status rows, or a lot that has
    none with NULLs. *)
Lemma In_left_join pl ops d :
  In (pl, ops) (left_join d) <->
  In pl (rows (parking_lots d)) /\
  match ops with
  | Some ps => In ps (rows (parking_status d)) /\ ps_lot_id ps = pl_id pl
  | None => status_rows_of (pl_id pl) d = []
  end.
Proof.
  unfold left_join. rewrite in_flat_map. split.
  - intros [pl' [Hpl Hin]].
    destruct (status_rows_of (pl_id pl') d) as [|s l] eqn:E.
    + destruct Hin as [Heq|[]]. inversion Heq; subst. auto.
    + rewrite <- E in Hin. apply in_map_iff in Hin.
      destruct Hin as [ps [Heq Hps]]. inversion Heq; subst.
      split; [assumption|]. apply In_status_rows_of. assumption.
  - intros [Hpl H]. exists pl. split; [assumption|].
    destruct ops as [ps|].
    + assert (Hin : In ps (status_rows_of (pl_id pl) d))
        by (apply In_status_rows_of; assumption).
      destruct (status_rows_of (pl_id pl) d) as [|s l] eqn:E; [destruct Hin|].
      apply (in_map (fun ps0 => (pl, Some ps0))). exact Hin.
    + rewrite H. left. reflexivity.
Qed.

Lemma In_lots_view l now d :
  In l (lots_view now d) <->
  exists pl ops,
    l = row_to_lot now (pl, ops) /\
    In pl (rows (parking_lots d)) /\
    match ops with
    | Some ps => In ps (rows (parking_status d)) /\ ps_lot_id ps = pl_id pl
    | None => status_rows_of (pl_id pl) d = []
    end.
Proof.
  unfold lots_view, select_lots_with_status. rewrite in_map_iff. split.
  - intros [[pl ops] [Heq Hin]]. apply In_order_by_name, In_left_join in Hin.
    exists pl, ops. auto.
  - intros [pl [ops [Heq H]]]. exists (pl, ops). split; [auto|].
    apply In_order_by_name, In_left_join. exact H.
Qed.

(** The invariant, read off the tables. *)
Lemma occupancy_invariant_tables d :
  occupancy_invariant d <->
  forall pl, In pl (rows (parking_lots d)) ->
    (forall ps, In ps (rows (parking_status d)) ->
                ps_lot_id ps = pl_id pl ->
                exists z, ps_occupied ps = Int z /\ 0 <= z <= pl_capacity pl) /\
    (status_rows_of (pl_id pl) d = [] -> 0 <= pl_capacity pl).
Proof.
  unfold occupancy_invariant, lot_invariant. split.
  - intros H pl Hpl. split.
    + intros ps Hps Hid.
      assert (H0 : In (row_to_lot 0 (pl, Some ps)) (lots_view 0 d))
        by (apply In_lots_view; exists pl, (Some ps); auto).
      apply H in H0. simpl in H0.
      destruct (ps_occupied ps) as [z|f]; [|destruct H0].
      exists z. split; [reflexivity|exact H0].
    + intros Hnil.
      pose proof (H 0 (row_to_lot 0 (pl, None))) as H0. simpl in H0.
      apply H0. apply In_lots_view. exists pl, None. auto.
  - intros H now l Hin. apply In_lots_view in Hin.
    destruct Hin as [pl [ops [-> [Hpl Hops]]]].
    destruct (H pl Hpl) as [H1 H2].
    destruct ops as [ps|]; simpl.
    + destruct Hops as [Hps Hid]. destruct (H1 ps Hps Hid) as [z [-> Hz]].
      exact Hz.
    + specialize (H2 Hops). lia.
Qed.

Lemma NoDup_map_eq {A : Type} (f : A -> Z) (l : list A) a b :
  NoDup (map f l) -> In a l -> In b l -> f a = f b -> a = b.
Proof.
  induction l as [|x l IH]; simpl; [tauto|].
  intros Hnd Ha Hb Hf. inversion Hnd as [|? ? Hnot Hnd']; subst.
  destruct Ha as [->|Ha], Hb as [->|Hb].
  - reflexivity.
  - exfalso. apply Hnot. rewrite Hf. apply in_map. assumption.
  - exfalso. apply Hnot. rewrite <- Hf. apply in_map. assumption.
  - auto.
Qed.

Lemma distinct_NoDup l : distinct l = true <-> NoDup l.
Proof.
  induction l as [|x l IH]; simpl.
  - split; [constructor|reflexivity].
  - rewrite andb_true_iff, negb_true_iff, IH, NoDup_cons_iff.
    assert (H : existsb (Z.eqb x) l = false <-> ~ In x l).
    { rewrite <- not_true_iff_false, existsb_exists. split.
      - intros H Hin. apply H. exists x. split; [assumption|apply Z.eqb_refl].
      - intros H [y [Hin Heq]]. apply Z.eqb_eq in Heq. subst y. auto. }
    rewrite H. tauto.
Qed.

Lemma well_formedb_spec d : well_formedb d = true <-> well_formed d.
Proof.
  unfold well_formedb, well_formed.
  rewrite andb_true_iff, !distinct_NoDup. tauto.
Qed.

Lemma lot_invariantb_spec l : lot_invariantb l = true <-> lot_invariant l.
Proof.
  unfold lot_invariantb, lot_invariant. destruct (lot_occupied l) as [z|f].
  - rewrite andb_true_iff, !Z.leb_le. tauto.
  - split; [discriminate|tauto].
Qed.

Lemma occupancy_invariantb_spec d :
  occupancy_invariantb d = true <-> occupancy_invariant d.
Proof.
  unfold occupancy_invariantb, occupancy_invariant.
  rewrite forallb_forall. split.
  - intros H now l Hl. apply In_lots_view in Hl.
    destruct Hl as [pl [ops [-> Hrow]]].
    assert (H0 : In (row_to_lot 0 (pl, ops)) (lots_view 0 d))
      by (apply In_lots_view; exists pl, ops; auto).
    apply H, lot_invariantb_spec in H0.
    unfold lot_invariant in *. simpl in *. exact H0.
  - intros H l Hl. apply lot_invariantb_spec. exact (H 0 l Hl).
Qed.

Lemma capacities_storedb_spec d :
  capacities_storedb d = true <-> capacities_stored d.
Proof.
  unfold capacities_storedb, capacities_stored. rewrite forallb_forall.
  split; intros H pl Hpl; [apply Z.leb_le|apply Z.leb_le]; auto.
Qed.

(** ** What one call does to the database *)

Ltac run_call :=
  unfold bind, ret, st_error, st_success, create_connection, run_txn, tbind,
    tret, query, commit, execute, insert_into, raises; simpl.

Lemma get_parking_lots_db e w : db (snd (get_parking_lots e w)) = db w.
Proof.
  destruct e as [[|err|[|k] err] now]; unfold get_parking_lots; run_call;
    reflexivity.
Qed.

Lemma get_parking_lots_result e w :
  fst (get_parking_lots e w) = lots_view (env_now e) (db w) \/
  fst (get_parking_lots e w) = [].
Proof.
  destruct e as [[|err|[|k] err] now]; unfold get_parking_lots; run_call;
    auto.
Qed.

Lemma get_parking_lots_no_fault now w :
  get_parking_lots (no_fault now) w = (lots_view now (db w), w).
Proof.
  destruct w. unfold get_parking_lots; run_call. reflexivity.
Qed.

Lemma fetchone_select_status_ids lid d :
  fetchone (select_status_ids lid d) = None <-> status_rows_of lid d = [].
Proof.
  unfold fetchone, select_status_ids.
  destruct (status_rows_of lid d); simpl; split; congruence.
Qed.

Lemma fetchone_has_status_row lid d :
  fetchone (select_status_ids lid d) = None <-> has_status_row lid d = false.
Proof.
  rewrite fetchone_select_status_ids. unfold has_status_row.
  destruct (status_rows_of lid d); split; congruence.
Qed.

Lemma update_parking_status_no_fault now lid occupied w :
  update_writes lid occupied (db w) = true ->
  update_parking_status (no_fault now) lid occupied w =
  (inr true, {| db := upsert_status lid occupied now (db w); ui := ui w |}).
Proof.
  unfold update_writes. rewrite !andb_true_iff, orb_true_iff.
  intros [[Hl Ho] Hrow].
  unfold update_parking_status, upsert_status; run_call.
  rewrite Hl, Ho. simpl.
  destruct (fetchone (select_status_ids lid (db w))) eqn:E; [reflexivity|].
  apply fetchone_has_status_row in E. rewrite E in Hrow.
  destruct Hrow as [Hrow|Hrow]; [discriminate|]. simpl. rewrite Hrow.
  reflexivity.
Qed.

(** A call that fails or raises leaves the file as it was. *)
Lemma update_parking_status_cases e lid occupied w :
  let r := update_parking_status e lid occupied w in
  (fst r = inr true /\
   db (snd r) = upsert_status lid occupied (env_now e) (db w)) \/
  (fst r = inr false /\ db (snd r) = db w) \/
  (exists exn, fst r = inl exn /\ db (snd r) = db w).
Proof.
  destruct e as [[|err|[|[|[|k]]] err] now];
    unfold update_parking_status, upsert_status; run_call;
    destruct (in_int64 lid); simpl; eauto;
    destruct (fetchone (select_status_ids lid (db w))); simpl; eauto;
    destruct (in_int64 occupied); simpl; eauto;
    destruct (rowid_available ps_id (parking_status (db w))); simpl; eauto.
Qed.

Lemma add_reservation_no_fault now lid form w :
  in_int64 lid = true ->
  rowid_available rs_id (reservations (db w)) = true ->
  add_reservation (no_fault now) lid (permit_type form) (license_plate form)
    (arrival_time form) "guest" w =
  (inr true, {| db := reserved lid form now (db w); ui := ui w |}).
Proof.
  intros Hl Hrow. unfold add_reservation, reserved; run_call.
  rewrite Hl, Hrow. reflexivity.
Qed.

Lemma add_reservation_cases e lid form w :
  let r := add_reservation e lid (permit_type form) (license_plate form)
             (arrival_time form) "guest" w in
  (fst r = inr true /\ db (snd r) = reserved lid form (env_now e) (db w)) \/
  (fst r = inr false /\ db (snd r) = db w) \/
  (exists exn, fst r = inl exn /\ db (snd r) = db w).
Proof.
  destruct e as [[|err|[|[|[|k]]] err] now];
    unfold add_reservation, reserved; run_call;
    destruct (in_int64 lid); simpl; eauto;
    destruct (rowid_available rs_id (reservations (db w))); simpl; eauto.
Qed.

(** ** Preservation of the invariant *)

Lemma status_rows_of_map f lid d t :
  (forall ps, ps_lot_id (f ps) = ps_lot_id ps) ->
  rows t = map f (rows (parking_status d)) ->
  status_rows_of lid (set_parking_status d t) = [] <->
  status_rows_of lid d = [].
Proof.
  intros Hf Ht. rewrite !status_rows_of_nil. simpl. rewrite Ht. split.
  - intros H ps Hin. rewrite <- Hf. apply H. apply in_map. exact Hin.
  - intros H ps' Hin. apply in_map_iff in Hin. destruct Hin as [ps [<- Hin]].
    rewrite Hf. auto.
Qed.

Lemma lots_view_row l now d :
  In l (lots_view now d) ->
  exists pl, In pl (rows (parking_lots d)) /\
    lot_id l = pl_id pl /\ lot_capacity l = pl_capacity pl /\
    ((exists ps, In ps (rows (parking_status d)) /\
                 ps_lot_id ps = pl_id pl /\ lot_occupied l = ps_occupied ps) \/
     (status_rows_of (pl_id pl) d = [] /\ lot_occupied l = Int 0)).
Proof.
  intros Hin. apply In_lots_view in Hin.
  destruct Hin as [pl [[ps|] [-> [Hpl Hops]]]]; exists pl; simpl.
  - destruct Hops. repeat split; auto. left. exists ps. auto.
  - repeat split; auto.
Qed.

Lemma sql_add_one_Int z :
  z < int64_max -> sql_add_one (Int z) = Int (z + 1).
Proof.
  intros H. unfold sql_add_one. apply Z.ltb_lt in H. rewrite H. reflexivity.
Qed.

(** With the invariant, the free spots of a listed lot are an integer that
    is not negative. *)
Lemma available_Int l :
  lot_invariant l ->
  exists z, lot_occupied l = Int z /\ 0 <= z <= lot_capacity l /\
            available l = Int (lot_capacity l - z).
Proof.
  unfold lot_invariant, available. destruct (lot_occupied l) as [z|f];
    [|tauto].
  intros H. exists z. auto.
Qed.

Lemma reserved_preserves d l now form t :
  well_formed d -> occupancy_invariant d -> capacities_stored d ->
  In l (lots_view now d) ->
  py_gt (available l) 0 = true ->
  well_formed (reserved (lot_id l) form t d) /\
  occupancy_invariant (reserved (lot_id l) form t d).
Proof.
  intros [Hlots Hstat] Hinv Hcaps Hl Havail.
  destruct (available_Int l (Hinv now l Hl)) as [z [Hz [Hrange Hav]]].
  rewrite Hav in Havail. simpl in Havail.
  rewrite Z.gtb_ltb in Havail. apply Z.ltb_lt in Havail.
  apply lots_view_row in Hl.
  destruct Hl as [pl0 [Hpl0 [Hid [Hcap Hocc]]]].
  pose proof (Hcaps pl0 Hpl0) as Hmax.
  split.
  - split; simpl; [assumption|].
    rewrite map_map.
    erewrite map_ext; [exact Hstat|].
    intros ps. simpl. destruct (Z.eqb _ _); reflexivity.
  - rewrite occupancy_invariant_tables in Hinv |- *.
    intros pl Hpl. simpl in Hpl. destruct (Hinv pl Hpl) as [H1 H2]. split.
    + intros ps' Hps' Hlid. simpl in Hps'. apply in_map_iff in Hps'.
      destruct Hps' as [ps [<- Hps]].
      destruct (Z.eqb (ps_lot_id ps) (lot_id l)) eqn:E; simpl in *.
      * apply Z.eqb_eq in E.
        assert (pl = pl0)
          by (apply (NoDup_map_eq pl_id (rows (parking_lots d))); auto;
              congruence).
        subst pl0. destruct (H1 ps Hps Hlid) as [z' [Hz' Hr']].
        destruct Hocc as [[ps0 [Hps0 [Hid0 Hocc]]]|[Hnil _]].
        -- assert (ps0 = ps)
             by (apply (NoDup_map_eq ps_lot_id (rows (parking_status d)));
                 auto; congruence).
           subst ps0. assert (z' = z) by congruence. subst z'.
           exists (z + 1). rewrite Hz', sql_add_one_Int by lia.
           split; [reflexivity|lia].
        -- rewrite status_rows_of_nil in Hnil. exfalso.
           exact (Hnil ps Hps Hlid).
      * auto.
    + intros Hnil. apply H2.
      unfold reserved, increment_occupied in Hnil.
      erewrite status_rows_of_map in Hnil; [| |reflexivity].
      * rewrite status_rows_of_nil in Hnil |- *. exact Hnil.
      * intros ps. simpl. destruct (Z.eqb _ _); reflexivity.
Qed.

Lemma upsert_status_preserves d lid n t :
  well_formed d -> occupancy_invariant d ->
  (forall pl, In pl (rows (parking_lots d)) -> pl_id pl = lid ->
              0 <= n <= pl_capacity pl) ->
  well_formed (upsert_status lid n t d) /\
  occupancy_invariant (upsert_status lid n t d).
Proof.
  intros [Hlots Hstat] Hinv Hn. unfold upsert_status.
  destruct (fetchone (select_status_ids lid d)) as [i|] eqn:E.
  - split.
    + split; simpl; [assumption|].
      rewrite map_map. erewrite map_ext; [exact Hstat|].
      intros ps. simpl. destruct (Z.eqb _ _); reflexivity.
    + rewrite occupancy_invariant_tables in Hinv |- *.
      intros pl Hpl. simpl in Hpl. destruct (Hinv pl Hpl) as [H1 H2]. split.
      * intros ps' Hps' Hlid. simpl in Hps'. apply in_map_iff in Hps'.
        destruct Hps' as [ps [<- Hps]].
        destruct (Z.eqb (ps_lot_id ps) lid) eqn:E'; simpl in *.
        -- apply Z.eqb_eq in E'. exists n. split; [reflexivity|].
           apply Hn; [assumption|congruence].
        -- auto.
      * intros Hnil. apply H2. unfold update_status in Hnil.
        erewrite status_rows_of_map in Hnil; [exact Hnil| |reflexivity].
        intros ps. simpl. destruct (Z.eqb _ _); reflexivity.
  - apply fetchone_select_status_ids in E.
    rewrite status_rows_of_nil in E. split.
    + split; simpl; [assumption|].
      rewrite map_app. simpl. apply NoDup_app; auto.
      * constructor; [simpl; tauto|constructor].
      * intros a Ha [<-|[]]. apply in_map_iff in Ha.
        destruct Ha as [ps [Hid Hps]]. exact (E ps Hps Hid).
    + rewrite occupancy_invariant_tables in Hinv |- *.
      intros pl Hpl. simpl in Hpl. destruct (Hinv pl Hpl) as [H1 H2]. split.
      * intros ps Hps Hlid. simpl in Hps. apply in_app_iff in Hps.
        destruct Hps as [Hps|[<-|[]]]; simpl in *; eauto.
      * intros Hnil. apply H2. rewrite status_rows_of_nil in Hnil |- *.
        intros ps Hps. apply Hnil. simpl. apply in_app_iff. auto.
Qed.

Lemma st_selectbox_In {A : Type} (options : list A) choice x :
  st_selectbox options choice = Some x -> In x options.
Proof.
  destruct options as [|first rest]; simpl; [discriminate|].
  intros H. injection H as <-.
  destruct choice as [|n]; [left; reflexivity|].
  destruct (nth_in_or_default n rest first) as [Hin| ->]; auto.
Qed.

(** The reserve view either leaves the file alone or books one reservation
    on a listed lot that had a free spot. *)
Lemma reserve_view_db e_list choice submitted e_res w :
  db (snd (reserve_view e_list choice submitted e_res w)) = db w \/
  exists l form,
    In l (lots_view (env_now e_list) (db w)) /\
    py_gt (available l) 0 = true /\
    db (snd (reserve_view e_list choice submitted e_res w)) =
      reserved (lot_id l) form (env_now e_res) (db w).
Proof.
  unfold reserve_view, bind.
  pose proof (get_parking_lots_db e_list w) as Hdb.
  pose proof (get_parking_lots_result e_list w) as Hres.
  destruct (get_parking_lots e_list w) as [lots w1]. simpl in Hdb, Hres.
  destruct (st_selectbox lots choice) as [l|] eqn:Hsel; [|left; exact Hdb].
  apply st_selectbox_In in Hsel.
  destruct Hres as [->| ->]; [|destruct Hsel].
  destruct (py_gt (py_sub (lot_capacity l) (lot_occupied l)) 0) eqn:Havail;
    [|left; exact Hdb].
  destruct submitted as [form|]; [|left; exact Hdb].
  pose proof (add_reservation_cases e_res (lot_id l) form w1) as Hadd.
  simpl in Hadd.
  destruct (add_reservation e_res (lot_id l) (permit_type form)
              (license_plate form) (arrival_time form) "guest" w1)
    as [ok w2].
  simpl in Hadd.
  destruct Hadd as [[-> Hw2]|[[-> Hw2]|[exn [-> Hw2]]]]; simpl.
  - right. exists l, form. rewrite Hw2, Hdb. repeat split; auto.
  - left. congruence.
  - left. congruence.
Qed.

(** The status tab either leaves the file alone or stores the number of the
    clicked lot's input. *)
Lemma admin_view_db e_list password clicked e_upd w :
  db (snd (admin_view e_list password clicked e_upd w)) = db w \/
  exists i l n,
    clicked = Some (i, n) /\
    nth_error (fst (get_parking_lots e_list w)) i = Some l /\
    In l (lots_view (env_now e_list) (db w)) /\
    db (snd (admin_view e_list password clicked e_upd w)) =
      upsert_status (lot_id l) n (env_now e_upd) (db w).
Proof.
  unfold admin_view, bind.
  pose proof (get_parking_lots_db e_list w) as Hdb.
  pose proof (get_parking_lots_result e_list w) as Hres.
  destruct (get_parking_lots e_list w) as [lots w1]. simpl in Hdb, Hres.
  destruct (negb (String.eqb password "campus123")); [left; exact Hdb|].
  simpl. destruct clicked as [[i n]|]; [|left; exact Hdb].
  destruct (nth_error lots i) as [l|] eqn:Hnth; [|left; exact Hdb].
  pose proof (update_parking_status_cases e_upd (lot_id l) n
                {| db := db w1; ui := ui w1 ++ [st_success_ev "Admin access granted"] |})
    as Hupd.
  destruct (update_parking_status e_upd (lot_id l) n _) as [ok w2].
  simpl in Hupd.
  destruct Hupd as [[-> Hw2]|[[-> Hw2]|[exn [-> Hw2]]]]; simpl.
  - right. exists i, l, n. rewrite Hw2, Hdb. repeat split; auto.
    apply nth_error_In in Hnth.
    destruct Hres as [->| ->]; [exact Hnth|destruct Hnth].
  - left. congruence.
  - left. congruence.
Qed.

Lemma reserved_lots lid form t d :
  parking_lots (reserved lid form t d) = parking_lots d.
Proof. reflexivity. Qed.

Lemma upsert_status_lots lid n t d :
  parking_lots (upsert_status lid n t d) = parking_lots d.
Proof.
  unfold upsert_status. destruct (fetchone _); reflexivity.
Qed.

(** Neither view touches the table of lots. *)
Lemma run_action_lots a w :
  parking_lots (db (run_action a w)) = parking_lots (db w).
Proof.
  destruct a as [el c s er|el p c eu]; simpl.
  - destruct (reserve_view_db el c s er w) as [->|[l [form [_ [_ ->]]]]];
      reflexivity.
  - destruct (admin_view_db el p c eu w) as [->|[i [l [n [_ [_ [_ ->]]]]]]];
      [reflexivity|apply upsert_status_lots].
Qed.

Lemma run_action_preserves a w :
  well_formed (db w) -> occupancy_invariant (db w) ->
  capacities_stored (db w) ->
  within_input_bounds a w ->
  well_formed (db (run_action a w)) /\
  occupancy_invariant (db (run_action a w)).
Proof.
  intros Hwf Hinv Hcaps Hin. destruct a as [el c s er|el p c eu]; simpl.
  - destruct (reserve_view_db el c s er w) as [->|[l [form [Hl [Hav ->]]]]];
      [auto|].
    eapply reserved_preserves; eauto.
  - destruct (admin_view_db el p c eu w) as [->|[i [l [n [-> [Hn [Hl ->]]]]]]];
      [auto|].
    simpl in Hin. specialize (Hin l Hn).
    apply upsert_status_preserves; auto.
    intros pl Hpl Hid.
    destruct (lots_view_row _ _ _ Hl) as [pl0 [Hpl0 [Hid0 [Hcap _]]]].
    assert (pl = pl0)
      by (destruct Hwf;
          apply (NoDup_map_eq pl_id (rows (parking_lots (db w)))); auto;
          congruence).
    subst pl0. lia.
Qed.

Lemma run_action_capacities a w :
  capacities_stored (db w) -> capacities_stored (db (run_action a w)).
Proof.
  unfold capacities_stored. rewrite run_action_lots. auto.
Qed.

(** ** Seeding *)

(** A status write made while the file is locked stores nothing and does
    not succeed. *)
Lemma update_parking_status_locked e lid n w :
  let r := update_parking_status (while_write_locked e) lid n w in
  db (snd r) = db w /\
  fst r <> inr true /\
  (in_int64 lid = true -> in_int64 n = true ->
   fst r = inr false /\
   exists msg, ui (snd r) = (ui w ++ [st_error_ev msg])%list).
Proof.
  destruct e as [[|err|[|[|k]] err] now];
    unfold while_write_locked, update_parking_status; run_call;
    destruct (in_int64 lid); simpl;
    try (destruct (fetchone (select_status_ids lid (db w))); simpl);
    try (destruct (in_int64 n); simpl);
    (split; [reflexivity|]); (split; [discriminate|]);
    intros; try discriminate; (split; [reflexivity|]); eexists; reflexivity.
Qed.

Lemma seed_occupied_db envs entropy ids : forall i w,
  db (snd (seed_occupied envs entropy i ids w)) = db w.
Proof.
  induction ids as [|lid rest IH]; intros i w; simpl; [reflexivity|].
  destruct (randint (lid * 10) (lid * 20) (entropy i)) as [n|];
    [|reflexivity].
  unfold bind.
  pose proof (update_parking_status_locked (envs i) lid n w) as [Hdb _].
  destruct (update_parking_status (while_write_locked (envs i)) lid n w)
    as [[exn|ok] w1]; simpl in *; [exact Hdb|].
  rewrite IH. exact Hdb.
Qed.

Lemma randint_range a b r n :
  randint a b r = Some n -> a <= n <= b.
Proof.
  unfold randint. destruct (a <=? b) eqn:E; [|discriminate].
  apply Z.leb_le in E. intros H. injection H as <-.
  pose proof (Z.mod_pos_bound r (b - a + 1)). lia.
Qed.

Lemma in_int64_spec z : in_int64 z = true <-> int64_min <= z <= int64_max.
Proof.
  unfold in_int64. rewrite andb_true_iff, !Z.leb_le. tauto.
Qed.

(** When the ids and twenty times the ids fit in 64 bits, the loop gets to
    its end, and every one of its calls shows an error. *)
Lemma seed_occupied_refused envs entropy ids : forall i w,
  (forall lid, In lid ids -> 0 <= lid /\ 20 * lid <= int64_max) ->
  let r := seed_occupied envs entropy i ids w in
  fst r = inr tt /\
  exists msgs,
    List.length msgs = List.length ids /\
    ui (snd r) = (ui w ++ map st_error_ev msgs)%list.
Proof.
  induction ids as [|lid rest IH]; intros i w Hids; simpl.
  - split; [reflexivity|]. exists []. simpl. rewrite app_nil_r. auto.
  - destruct (Hids lid (or_introl eq_refl)) as [H0 H20].
    unfold randint. destruct (lid * 10 <=? lid * 20) eqn:E;
      [|apply Z.leb_gt in E; lia].
    set (n := lid * 10 + entropy i mod (lid * 20 - lid * 10 + 1)).
    assert (Hn : lid * 10 <= n <= lid * 20).
    { subst n.
      pose proof (Z.mod_pos_bound (entropy i) (lid * 20 - lid * 10 + 1)).
      lia. }
    unfold bind.
    assert (Hmin : int64_min <= 0) by (unfold int64_min; lia).
    destruct (update_parking_status_locked (envs i) lid n w)
      as [_ [_ Hr]].
    destruct Hr as [Hfst [msg Hui]];
      [apply in_int64_spec; lia|apply in_int64_spec; lia|].
    destruct (update_parking_status (while_write_locked (envs i)) lid n w)
      as [ok w1]. simpl in Hfst, Hui. subst ok.
    destruct (IH (S i) w1) as [Hr [msgs [Hlen Hmsgs]]].
    { intros l Hl. apply Hids. right. exact Hl. }
    split; [exact Hr|]. exists (msg :: msgs). simpl.
    split; [congruence|]. rewrite Hmsgs, Hui, <- app_assoc. reflexivity.
Qed.

Lemma executemany_insert_lots params : forall d,
  (exists e,
     executemany
       (fun values => insert_into pl_id parking_lots (insert_lot values))
       params d = inl e) \/
  executemany
    (fun values => insert_into pl_id parking_lots (insert_lot values))
    params d
  = inr (tt, fold_left (fun d' values => insert_lot values d') params d).
Proof.
  induction params as [|p rest IH]; intros d; simpl; [auto|].
  unfold insert_into at 1 3.
  destruct (rowid_available pl_id (parking_lots d)); [|eauto].
  apply IH.
Qed.

(** Seeding leaves the file as it was, or, the lots table being empty,
    stores the sample lots and nothing else. *)
Lemma seed_lots_cases conn d :
  (exists e, seed_lots conn (0%nat, d) = inl (SqliteError e)) \/
  (exists k, seed_lots conn (0%nat, d) = inr (None, (k, d))) \/
  (rows (parking_lots d) = [] /\
   seed_lots conn (0%nat, d) =
     inr (Some (select_lot_ids (with_sample_lots d)),
          (3%nat, with_sample_lots d))).
Proof.
  assert (Hcount : Z.eqb (count_lots d) 0 = true ->
                   rows (parking_lots d) = []).
  { unfold count_lots. destruct (rows (parking_lots d));
      [reflexivity|discriminate]. }
  unfold seed_lots, tbind, query, execute, tret.
  replace (forallb in_int64 (flat_map sample_integers sample_lots))
    with true by reflexivity.
  cbn [forallb fst snd].
  destruct (raises conn 0); [eauto|].
  destruct (Z.eqb (count_lots d) 0) eqn:E; [|eauto].
  cbn [fst snd].
  destruct (raises conn 1); [eauto|].
  destruct (executemany_insert_lots sample_lots d) as [[e ->]| ->];
    [eauto|].
  cbn [fst snd].
  destruct (raises conn 2); [eauto|].
  right. right. split; [auto|reflexivity].
Qed.

Lemma commit_cases conn s :
  (exists e, commit conn s = inl (SqliteError e)) \/
  commit conn s = inr (tt, (S (fst s), snd s)).
Proof.
  unfold commit, execute. cbn [forallb].
  destruct (raises conn (fst s)); eauto.
Qed.


(** ** The states the pages reach *)

Lemma with_sample_lots_rows d :
  rows (parking_lots d) = [] ->
  let first := Z.max (seq (parking_lots d)) 0 + 1 in
  map (fun pl => (pl_id pl, pl_name pl, pl_capacity pl))
    (rows (parking_lots (with_sample_lots d)))
  = [ (first, "Great Hall", 31);
      (first + 1, "Faculty of Science", 200);
      (first + 2, "Student Union Lot", 40);
      (first + 3, "Athletics Field Parking", 150) ].
Proof.
  intros Hrows first. subst first.
  destruct d as [[lots s] status res]. simpl in Hrows. subst lots.
  unfold with_sample_lots, sample_lots, insert_lot, set_parking_lots,
    insert_row, next_rowid, max_rowid.
  cbn [fold_left snd parking_lots parking_status reservations rows seq map
       app fold_right pl_id pl_name pl_capacity].
  repeat (f_equal; try lia).
Qed.

Lemma with_sample_lots_status d :
  parking_status (with_sample_lots d) = parking_status d.
Proof. reflexivity. Qed.









(** The concrete states are states the pages reach. *)
Lemma seeded_without_status_reachable : reachable seeded_without_status.
Proof. apply reachable_seeding, reachable_fresh. Qed.

Lemma admin_sets_reachable i n now w l :
  reachable w ->
  nth_error (lots_view now (db w)) i = Some l ->
  0 <= n <= lot_capacity l ->
  reachable (admin_sets i n now w).
Proof.
  intros Hw Hnth Hn.
  apply (reachable_action
           (SetOccupied (no_fault now) "campus123" (Some (i, n))
              (no_fault now)) w Hw).
  unfold within_input_bounds. rewrite get_parking_lots_no_fault.
  cbn [fst]. intros l' Hl'. assert (l' = l) by congruence. subst l'. exact Hn.
Qed.

Lemma stocked_reachable : reachable stocked.
Proof.
  unfold stocked.
  eapply admin_sets_reachable; [|vm_compute; reflexivity|simpl; lia].
  eapply admin_sets_reachable; [|vm_compute; reflexivity|simpl; lia].
  eapply admin_sets_reachable; [|vm_compute; reflexivity|simpl; lia].
  eapply admin_sets_reachable; [|vm_compute; reflexivity|simpl; lia].
  exact seeded_without_status_reachable.
Qed.

Lemma student_union_full_reachable : reachable student_union_full.
Proof.
  unfold student_union_full.
  eapply admin_sets_reachable;
    [exact stocked_reachable|vm_compute; reflexivity|simpl; lia].
Qed.

(** ** Claims *)

Ltac concrete_well_formed :=
  apply well_formedb_spec; vm_compute; reflexivity.

Ltac concrete_invariant :=
  apply occupancy_invariantb_spec; vm_compute; reflexivity.

Ltac concrete_capacities :=
  apply capacities_storedb_spec; vm_compute; reflexivity.

(** C1 (amended).  Starting from a well-formed database that satisfies
    [0 <= occupied <= capacity] for every lot and whose capacities are
    64-bit integers, after each action of any run of uses of the reserve
    view and of the admin view's status tab, every lot still has
    [0 <= occupied <= capacity].  The two views are what keeps it: the
    reserve view calls [add_reservation] only when [available > 0], and the
    numbers of the admin actions lie within the bounds of the number input
    ([0] to the lot's capacity). *)
Theorem occupancy_invariant_preserved acts w :
  well_formed (db w) -> occupancy_invariant (db w) ->
  capacities_stored (db w) ->
  inputs_within_bounds acts w ->
  Forall (fun w' => occupancy_invariant (db w')) (states_after acts w).
Proof.
  revert w. induction acts as [|a acts IH]; intros w Hwf Hinv Hcaps Hin; simpl.
  - constructor.
  - destruct Hin as [Ha Hrest].
    destruct (run_action_preserves a w Hwf Hinv Hcaps Ha) as [Hwf' Hinv'].
    constructor; [exact Hinv'|].
    apply IH; auto. apply run_action_capacities. exact Hcaps.
Qed.

Lemma occupancy_invariant_preserved_witness :
  Forall (fun w' => occupancy_invariant (db w'))
    (states_after
       [ Reserve (no_fault 10) 2 (Some sample_form) (no_fault 11);
         SetOccupied (no_fault 12) "campus123" (Some (2%nat, 31)) (no_fault 13);
         Reserve (no_fault 14) 2 (Some sample_form) (no_fault 15) ]
       stocked).
Proof.
  apply occupancy_invariant_preserved.
  - concrete_well_formed.
  - concrete_invariant.
  - concrete_capacities.
  - unfold inputs_within_bounds, within_input_bounds.
    split; [exact I|]. split; [|split; exact I].
    intros l H. vm_compute in H. injection H as <-. simpl. lia.
Defined.

(** C1 as stated fails for the two functions: in a state the pages reach,
    which satisfies the invariant and where the Student Union Lot (id 3,
    capacity 40) is full, [add_reservation] for that lot returns [True] and
    the lot is then listed with 41 occupied; and [update_parking_status]
    stores 32 for the Great Hall (id 1, capacity 31). *)
Lemma occupancy_invariant_broken_by_calls :
  let w := student_union_full in
  let booked :=
    add_reservation (no_fault 10) 3 "Student" "ABC123" "09:30" "guest" w in
  let updated := update_parking_status (no_fault 10) 1 32 w in
  let listing d :=
    map (fun l => (lot_id l, lot_capacity l, lot_occupied l))
      (lots_view 0 d) in
  reachable w /\
  well_formed (db w) /\
  occupancy_invariant (db w) /\
  In (3, 40, Int 40) (listing (db w)) /\
  fst booked = inr true /\
  In (3, 40, Int 41) (listing (db (snd booked))) /\
  ~ occupancy_invariant (db (snd booked)) /\
  fst updated = inr true /\
  In (1, 31, Int 32) (listing (db (snd updated))) /\
  ~ occupancy_invariant (db (snd updated)).
Proof.
  cbv zeta.
  split; [exact student_union_full_reachable|].
  split; [concrete_well_formed|]. split; [concrete_invariant|].
  split; [vm_compute; auto 10|].
  split; [vm_compute; reflexivity|].
  split; [vm_compute; auto 10|].
  split; [intros H; apply occupancy_invariantb_spec in H; vm_compute in H;
          discriminate|].
  split; [vm_compute; reflexivity|].
  split; [vm_compute; auto 10|].
  intros H; apply occupancy_invariantb_spec in H; vm_compute in H;
    discriminate.
Qed.

(** C2.  When the selected lot has no available spot ([capacity - occupied
    > 0] is false), the reserve view shows "No available spots in this lot"
    and does nothing else: the result does not depend on the form or on what
    the storage would do for [add_reservation], and the database, hence
    every lot's occupied count, is the one before the call.  The message is
    distinguishable: on a lot with available spots the view never shows
    it. *)
Theorem reserve_view_full_lot e_list choice submitted e_res w selected_lot :
  st_selectbox (fst (get_parking_lots e_list w)) choice = Some selected_lot ->
  let r := reserve_view e_list choice submitted e_res w in
  let w1 := snd (get_parking_lots e_list w) in
  (py_gt (available selected_lot) 0 = false ->
   r = (inr tt,
        {| db := db w;
           ui := ui w1 ++ [st_error_ev "No available spots in this lot"] |}) /\
   forall now, lots_view now (db (snd r)) = lots_view now (db w)) /\
  (py_gt (available selected_lot) 0 = true ->
   exists shown,
     ui (snd r) = (ui w1 ++ shown)%list /\
     ~ In (st_error_ev "No available spots in this lot") shown).
Proof.
  intros Hsel r w1. subst r w1. unfold reserve_view, bind, available.
  pose proof (get_parking_lots_db e_list w) as Hdb.
  destruct (get_parking_lots e_list w) as [lots w']. simpl in Hsel, Hdb |- *.
  rewrite Hsel. split.
  - intros E. rewrite E. unfold st_error, ret. simpl. rewrite Hdb. auto.
  - intros E. rewrite E. destruct submitted as [form|].
    + destruct e_res as [[|err|[|[|[|k]]] err] now];
        unfold add_reservation; run_call;
        destruct (in_int64 (lot_id selected_lot)); simpl;
        try (destruct (rowid_available rs_id (reservations (db w'))); simpl);
        first [ exists [] ; rewrite app_nil_r; split; [reflexivity|tauto]
              | eexists; split; [try rewrite <- app_assoc; reflexivity|];
                simpl; intuition discriminate ].
    + exists []. unfold ret. simpl. rewrite app_nil_r. tauto.
Qed.

Lemma reserve_view_full_lot_witness :
  reserve_view (no_fault 10) 3 (Some sample_form) (no_fault 11)
    student_union_full =
  (inr tt,
   {| db := db student_union_full;
      ui := ui student_union_full
            ++ [st_error_ev "No available spots in this lot"] |}).
Proof.
  refine (proj1 (proj1
    (reserve_view_full_lot (no_fault 10) 3 (Some sample_form) (no_fault 11)
       student_union_full
       {| lot_id := 3; lot_name := "Student Union Lot"; lot_capacity := 40;
          lot_rate := "1.00/hr"; lot_location := "Next to Student Center";
          lot_coords := (37.7735%float, (-122.4210)%float);
          lot_special := Some "Student Permits";
          lot_occupied := Int 40; lot_last_updated := 4 |} _) _)).
  - vm_compute. reflexivity.
  - vm_compute. reflexivity.
Defined.

Lemma upsert_status_row ps lid n t d :
  In ps (rows (parking_status (upsert_status lid n t d))) ->
  ps_lot_id ps = lid ->
  ps_occupied ps = Int n /\ ps_last_updated ps = t.
Proof.
  unfold upsert_status.
  destruct (fetchone (select_status_ids lid d)) eqn:E; simpl.
  - intros Hin Hid. apply in_map_iff in Hin. destruct Hin as [ps0 [<- Hin]].
    destruct (Z.eqb (ps_lot_id ps0) lid) eqn:E'; simpl in *; auto.
    apply Z.eqb_neq in E'. contradiction.
  - apply fetchone_select_status_ids in E. rewrite status_rows_of_nil in E.
    intros Hin Hid. apply in_app_iff in Hin.
    destruct Hin as [Hin|[<-|[]]]; simpl; auto.
    exfalso. exact (E ps Hin Hid).
Qed.

Lemma upsert_status_has_row lid n t d :
  status_rows_of lid (upsert_status lid n t d) <> [].
Proof.
  rewrite status_rows_of_nil. unfold upsert_status. intros H.
  destruct (fetchone (select_status_ids lid d)) eqn:E; simpl in H.
  - assert (Hne : status_rows_of lid d <> []).
    { intros Hnil. apply fetchone_select_status_ids in Hnil. congruence. }
    apply Hne. apply status_rows_of_nil. intros ps Hps Hid.
    apply (H _ (in_map _ _ _ Hps)). simpl.
    destruct (Z.eqb _ _); simpl; assumption.
  - eapply H; [apply in_app_iff; right; left; reflexivity|]. reflexivity.
Qed.

(** Binding an integer that does not fit in 64 bits raises, before anything
    is written. *)
Lemma update_parking_status_overflow now lid n w :
  in_int64 lid && in_int64 n = false ->
  update_parking_status (no_fault now) lid n w = (inl "OverflowError", w).
Proof.
  intros H. unfold update_parking_status; run_call.
  destruct (in_int64 lid); simpl in *.
  - rewrite H. destruct (fetchone (select_status_ids lid (db w))); simpl;
      rewrite ?andb_false_r; reflexivity.
  - reflexivity.
Qed.

(** C3 (amended).  [update_parking_status] checks no range and has no
    rejected result.  For every lot id and every integer that SQLite can
    hold (64 bits), in the lot's range or not, a call that meets no storage
    error (for a lot without a status row this includes that a rowid is
    left) returns [True] and from then on every listed entry of that lot
    shows the given number as its occupied count: the status row is created
    when the lot had none, overwritten otherwise.  An integer outside 64
    bits is not rejected either: the call raises [OverflowError] and
    nothing is written or shown.  A call that does not return [True] leaves
    the database as it was.  Only the admin page's number input, with
    [min_value=0] and [max_value=capacity], keeps the number in range. *)
Theorem update_parking_status_unchecked e lid n w :
  let r := update_parking_status e lid n w in
  (env_fault e = NoFault -> update_writes lid n (db w) = true ->
   fst r = inr true /\
   (forall pl, In pl (rows (parking_lots (db w))) -> pl_id pl = lid ->
      exists l, In l (lots_view 0 (db (snd r))) /\
                lot_id l = lid /\ lot_capacity l = pl_capacity pl) /\
   (forall now l, In l (lots_view now (db (snd r))) -> lot_id l = lid ->
      lot_occupied l = Int n)) /\
  (env_fault e = NoFault -> in_int64 lid && in_int64 n = false ->
   r = (inl "OverflowError", w)) /\
  (fst r <> inr true -> db (snd r) = db w).
Proof.
  intros r. subst r. split; [|split].
  - intros Hf Hw. destruct e as [f t]. simpl in Hf. subst f.
    change {| env_fault := NoFault; env_now := t |} with (no_fault t).
    rewrite (update_parking_status_no_fault _ _ _ _ Hw). simpl.
    split; [reflexivity|]. split.
    + intros pl Hpl Hid.
      pose proof (upsert_status_has_row lid n t (db w)) as Hrow.
      destruct (status_rows_of lid (upsert_status lid n t (db w)))
        as [|ps rest] eqn:E; [congruence|].
      assert (Hps : In ps (status_rows_of lid (upsert_status lid n t (db w))))
        by (rewrite E; left; reflexivity).
      apply In_status_rows_of in Hps. destruct Hps as [Hps Hpsid].
      exists (row_to_lot 0 (pl, Some ps)). split; [|simpl; auto].
      apply In_lots_view. exists pl, (Some ps).
      rewrite upsert_status_lots. repeat split; auto. congruence.
    + intros now l Hl Hid. apply In_lots_view in Hl.
      destruct Hl as [pl [[ps|] [-> [Hpl Hops]]]]; simpl in *.
      * destruct Hops as [Hps Hpsid].
        apply (upsert_status_row ps lid n t (db w)); congruence.
      * exfalso. apply (upsert_status_has_row lid n t (db w)). congruence.
  - intros Hf Hbig. destruct e as [f t]. simpl in Hf. subst f.
    change {| env_fault := NoFault; env_now := t |} with (no_fault t).
    apply update_parking_status_overflow. exact Hbig.
  - intros Hfalse.
    destruct (update_parking_status_cases e lid n w)
      as [[Ht _]|[[_ Hdb]|[exn [_ Hdb]]]]; [contradiction|exact Hdb..].
Qed.

Lemma update_parking_status_unchecked_witness :
  fst (update_parking_status (no_fault 20) 1 41 stocked) = inr true /\
  (forall now l,
     In l (lots_view now
             (db (snd (update_parking_status (no_fault 20) 1 41 stocked)))) ->
     lot_id l = 1 -> lot_occupied l = Int 41) /\
  update_parking_status (no_fault 20) 1 (2 ^ 63) stocked
  = (inl "OverflowError", stocked).
Proof.
  destruct (proj1 (update_parking_status_unchecked (no_fault 20) 1 41
                     stocked) eq_refl eq_refl) as [Hok [_ Hocc]].
  split; [exact Hok|]. split; [exact Hocc|].
  exact (proj1 (proj2 (update_parking_status_unchecked (no_fault 20) 1 (2 ^ 63)
                         stocked)) eq_refl eq_refl).
Defined.

(** C3 as stated fails: in a state the pages reach, where the Great Hall
    (id 1, capacity 31) is listed with 10 occupied,
    [update_parking_status(1, -1)] is not rejected: it returns [True] and
    the lot is listed with [-1]. *)
Lemma update_negative_not_rejected :
  let w := stocked in
  let r := update_parking_status (no_fault 21) 1 (-1) w in
  let listing d :=
    map (fun l => (lot_id l, lot_capacity l, lot_occupied l))
      (lots_view 0 d) in
  reachable w /\
  In (1, 31, Int 10) (listing (db w)) /\
  fst r = inr true /\
  In (1, 31, Int (-1)) (listing (db (snd r))).
Proof.
  cbv zeta. split; [exact stocked_reachable|].
  vm_compute. repeat split; auto.
Qed.

(** C4: evaluation at the failing input.  After the seeding, whose nested
    status writes are refused, the Great Hall (id 1, capacity 31) has no
    status row.  [add_reservation] for it returns [True] and stores the
    reservation, the reserve view shows "Reservation confirmed!", and the
    lot is listed with occupied 0 and 31 available spots before and after:
    the [UPDATE] that adds one finds no row. *)
Lemma add_reservation_without_status_row :
  let w := seeded_without_status in
  let r := add_reservation (no_fault 11) 1 "Student" "ABC123" "09:30" "guest" w in
  let w' := snd (reserve_view (no_fault 10) 2 (Some sample_form) (no_fault 11) w) in
  let listing d :=
    map (fun l => (lot_id l, lot_occupied l, available l)) (lots_view 0 d) in
  rows (parking_status (db w)) = [] /\
  fst r = inr true /\
  db w' = db (snd r) /\
  map rs_lot_id (rows (reservations (db w'))) = [1] /\
  In (st_success_ev "Reservation confirmed!") (ui w') /\
  listing (db w) = [(4, Int 0, Int 150); (2, Int 0, Int 200);
                    (1, Int 0, Int 31); (3, Int 0, Int 40)] /\
  listing (db w') = [(4, Int 0, Int 150); (2, Int 0, Int 200);
                     (1, Int 0, Int 31); (3, Int 0, Int 40)].
Proof.
  vm_compute. repeat split; auto 10.
Qed.

(** On a lot that has a status row the same call adds one, as SQLite adds:
    exactly one to a count below the greatest 64-bit integer. *)
Lemma reserved_increments lid form t d ps :
  In ps (rows (parking_status d)) -> ps_lot_id ps = lid ->
  In {| ps_id := ps_id ps; ps_lot_id := lid;
        ps_occupied := sql_add_one (ps_occupied ps);
        ps_last_updated := ps_last_updated ps |}
     (rows (parking_status (reserved lid form t d))) /\
  (forall occupied, ps_occupied ps = Int occupied -> occupied < int64_max ->
     sql_add_one (ps_occupied ps) = Int (occupied + 1)).
Proof.
  intros Hin Hid. split.
  - simpl. apply in_map_iff. exists ps. split; [|assumption].
    subst lid. rewrite Z.eqb_refl. reflexivity.
  - intros z -> Hz. apply sql_add_one_Int. exact Hz.
Qed.





Section ClassifierFacts.

Variables image ndarray : Type.
Variable load_img : string -> Z * Z -> Exc image.
Variable img_to_array : image -> ndarray.
Variable expand_dims : ndarray -> Z -> ndarray.

(** C7.  When the picture decodes and the model answers a score, the
    result is the label "Occupied" exactly when [score > 0.5] and "Empty"
    otherwise, together with the score itself; nothing is shown and
    nothing is stored. *)
Theorem classify_parking_spot_label img_path (m : keras_model ndarray)
    img score rest_of_row rest w :
  load_img img_path (180, 180) = inr img ->
  m (expand_dims (img_to_array img) 0)
    = inr ((score :: rest_of_row) :: rest) ->
  let r :=
    classify_parking_spot image ndarray load_img img_to_array expand_dims
      img_path (Some m) w in
  r = ((if PrimFloat.ltb 0.5 score then "Occupied" else "Empty", score), w)
  /\ (fst (fst r) = "Occupied" <-> PrimFloat.ltb 0.5 score = true)
  /\ (fst (fst r) = "Empty" <-> PrimFloat.ltb 0.5 score = false)
  /\ snd (fst r) = score.
Proof.
  intros Himg Hpred r.
  assert (E : r = ((if PrimFloat.ltb 0.5 score then "Occupied" else "Empty",
                    score), w)).
  { subst r. unfold classify_parking_spot, try_except, ebind, predict.
    rewrite Himg, Hpred. reflexivity. }
  rewrite E. simpl. split; [reflexivity|].
  destruct (PrimFloat.ltb 0.5 score); repeat split; intros;
    try reflexivity; discriminate.
Qed.

(** C8.  When there is no model, or the picture does not decode, the call
    still returns: its result is the label "Error" with confidence 0.0,
    which is neither "Occupied" nor "Empty", after the error was shown on
    the page; the database is untouched. *)
Theorem classify_parking_spot_error img_path model w :
  model = None \/ (exists e, load_img img_path (180, 180) = inl e) ->
  exists e,
    classify_parking_spot image ndarray load_img img_to_array expand_dims
      img_path model w
      = (("Error", 0%float),
         {| db := db w;
            ui := ui w ++ [st_error_ev ("Error classifying image: " ++ e)] |})
    /\ "Error" <> "Occupied" /\ "Error" <> "Empty".
Proof.
  intros H.
  unfold classify_parking_spot, try_except, ebind, predict,
    bind, st_error, ret.
  destruct (load_img img_path (180, 180)) as [e|img] eqn:Himg.
  - exists e. repeat split; discriminate.
  - destruct H as [->|[e He]]; [|discriminate].
    eexists. repeat split; discriminate.
Qed.

End ClassifierFacts.

(** The stub model of the examples: score 0.2 gives ("Empty", 0.2), score
    0.9 gives ("Occupied", 0.9). *)
Lemma classify_parking_spot_label_witness :
  stub_classify "black.png" (Some (stub_model 0.2)) fresh_world
    = (("Empty", 0.2%float), fresh_world) /\
  stub_classify "black.png" (Some (stub_model 0.9)) fresh_world
    = (("Occupied", 0.9%float), fresh_world).
Proof.
  split.
  - exact (proj1 (classify_parking_spot_label string string stub_load_img
                    (fun x => x) (fun x _ => x) "black.png" (stub_model 0.2)
                    "black.png" 0.2%float [] [] fresh_world
                    eq_refl eq_refl)).
  - exact (proj1 (classify_parking_spot_label string string stub_load_img
                    (fun x => x) (fun x _ => x) "black.png" (stub_model 0.9)
                    "black.png" 0.9%float [] [] fresh_world
                    eq_refl eq_refl)).
Defined.

(** A file that does not decode, and a missing model. *)
Lemma classify_parking_spot_error_witness :
  (exists e, stub_classify "blob" (Some (stub_model 0.9)) fresh_world
     = (("Error", 0%float),
        {| db := fresh_database;
           ui := [st_error_ev ("Error classifying image: " ++ e)] |})) /\
  (exists e, stub_classify "black.png" None fresh_world
     = (("Error", 0%float),
        {| db := fresh_database;
           ui := [st_error_ev ("Error classifying image: " ++ e)] |})).
Proof.
  split.
  - destruct (classify_parking_spot_error string string stub_load_img
                (fun x => x) (fun x _ => x) "blob" (Some (stub_model 0.9))
                fresh_world
                (or_intror (ex_intro _ "UnidentifiedImageError" eq_refl)))
      as [e [He _]].
    exists e. exact He.
  - destruct (classify_parking_spot_error string string stub_load_img
                (fun x => x) (fun x _ => x) "black.png" None fresh_world
                (or_introl eq_refl))
      as [e [He _]].
    exists e. exact He.
Defined.

Lemma update_rows_none lid n t (l : list parking_status_row) :
  (forall ps, In ps l -> ps_lot_id ps <> lid) ->
  map (fun ps =>
         if Z.eqb (ps_lot_id ps) lid
         then {| ps_id := ps_id ps; ps_lot_id := ps_lot_id ps;
                 ps_occupied := n; ps_last_updated := t |}
         else ps) l = l.
Proof.
  induction l as [|ps l IH]; simpl; intros H; [reflexivity|].
  rewrite IH by auto.
  destruct (Z.eqb (ps_lot_id ps) lid) eqn:E; [|reflexivity].
  apply Z.eqb_eq in E. exfalso. apply (H ps); auto.
Qed.

Lemma upsert_status_twice lid n t1 t2 d :
  upsert_status lid n t2 (upsert_status lid n t1 d) = upsert_status lid n t2 d.
Proof.
  assert (Hfound : fetchone (select_status_ids lid (upsert_status lid n t1 d))
                   <> None).
  { intros H. apply fetchone_select_status_ids in H.
    exact (upsert_status_has_row lid n t1 d H). }
  unfold upsert_status at 1.
  destruct (fetchone (select_status_ids lid (upsert_status lid n t1 d)));
    [clear Hfound|congruence].
  unfold upsert_status.
  destruct (fetchone (select_status_ids lid d)) eqn:E.
  - unfold update_status, set_parking_status, update_rows. simpl.
    f_equal. f_equal. rewrite map_map. apply map_ext. intros ps.
    destruct (Z.eqb (ps_lot_id ps) lid) eqn:E'; simpl; rewrite E'; reflexivity.
  - apply fetchone_select_status_ids in E. rewrite status_rows_of_nil in E.
    unfold update_status, insert_status, set_parking_status, update_rows,
      insert_row. simpl.
    f_equal. f_equal. rewrite map_app. simpl. rewrite Z.eqb_refl.
    rewrite update_rows_none by exact E. reflexivity.
Qed.

Lemma has_status_row_true lid d :
  has_status_row lid d = true <-> status_rows_of lid d <> [].
Proof.
  unfold has_status_row. destruct (status_rows_of lid d); split;
    congruence.
Qed.

Lemma update_writes_again lid n t d :
  update_writes lid n d = true ->
  update_writes lid n (upsert_status lid n t d) = true.
Proof.
  unfold update_writes. rewrite !andb_true_iff. intros [H _].
  split; [exact H|]. apply orb_true_iff. left.
  apply has_status_row_true, upsert_status_has_row.
Qed.

(** C9 (amended).  For every lot id and count that fit in 64 bits, a call
    of [update_parking_status] that meets no storage error (for a lot
    without a status row this includes that a rowid is left) adds a status
    row (next rowid, the count, the time of the call) when the lot has
    none, and otherwise overwrites occupied and last_updated in the lot's
    rows and nothing else; and a second such call with the same count
    leaves exactly the state that this call alone leaves. *)
Theorem update_parking_status_upsert now lid n w :
  update_writes lid n (db w) = true ->
  let w1 := snd (update_parking_status (no_fault now) lid n w) in
  fst (update_parking_status (no_fault now) lid n w) = inr true /\
  (status_rows_of lid (db w) = [] ->
   rows (parking_status (db w1)) =
     (rows (parking_status (db w)) ++
      [{| ps_id := next_rowid ps_id (parking_status (db w)); ps_lot_id := lid;
          ps_occupied := Int n; ps_last_updated := now |}])%list) /\
  (status_rows_of lid (db w) <> [] ->
   rows (parking_status (db w1)) =
     map (fun ps =>
            if Z.eqb (ps_lot_id ps) lid
            then {| ps_id := ps_id ps; ps_lot_id := ps_lot_id ps;
                    ps_occupied := Int n; ps_last_updated := now |}
            else ps)
         (rows (parking_status (db w)))) /\
  parking_lots (db w1) = parking_lots (db w) /\
  reservations (db w1) = reservations (db w) /\
  (forall now',
     update_parking_status (no_fault now') lid n
       (snd (update_parking_status (no_fault now) lid n w))
     = update_parking_status (no_fault now') lid n w) /\
  update_parking_status (no_fault now) lid n w1
    = (inr true, w1).
Proof.
  intros Hw w1. subst w1.
  pose proof (update_writes_again lid n now (db w) Hw) as Hw'.
  rewrite !(update_parking_status_no_fault _ _ _ w Hw). simpl.
  split; [reflexivity|].
  split; [|split; [|split; [|split; [|split]]]].
  - intros Hnil. apply fetchone_select_status_ids in Hnil.
    unfold upsert_status. rewrite Hnil. reflexivity.
  - intros Hne. unfold upsert_status.
    destruct (fetchone (select_status_ids lid (db w))) eqn:E; [reflexivity|].
    apply fetchone_select_status_ids in E. contradiction.
  - apply upsert_status_lots.
  - unfold upsert_status. destruct (fetchone _); reflexivity.
  - intros now'. rewrite (update_parking_status_no_fault now' _ _ w Hw).
    rewrite update_parking_status_no_fault by exact Hw'.
    simpl. rewrite upsert_status_twice. reflexivity.
  - rewrite update_parking_status_no_fault by exact Hw'. simpl.
    rewrite upsert_status_twice. reflexivity.
Qed.

(** A first call for a lot without a status row creates the row; a call
    for a lot that has one overwrites it and leaves the other lots' rows. *)
Lemma update_parking_status_upsert_witness :
  rows (parking_status
          (db (snd (update_parking_status (no_fault 20) 1 5
                      seeded_without_status))))
  = [{| ps_id := 1; ps_lot_id := 1; ps_occupied := Int 5;
        ps_last_updated := 20 |}] /\
  map (fun ps => (ps_lot_id ps, ps_occupied ps, ps_last_updated ps))
    (rows (parking_status
             (db (snd (update_parking_status (no_fault 20) 1 5 stocked)))))
  = [(1, Int 5, 20); (2, Int 20, 1); (3, Int 30, 2); (4, Int 40, 3)].
Proof.
  destruct (update_parking_status_upsert 20 1 5 seeded_without_status eq_refl)
    as [_ [Hins _]].
  destruct (update_parking_status_upsert 20 1 5 stocked eq_refl)
    as [_ [_ [Hupd _]]].
  split.
  - rewrite Hins by (vm_compute; reflexivity). vm_compute. reflexivity.
  - rewrite Hupd by (vm_compute; discriminate). vm_compute. reflexivity.
Defined.

(** C9 as stated fails for a count that does not fit in 64 bits: in states
    the pages reach, [update_parking_status(1, 2**63)] raises
    [OverflowError]; it creates no row for a lot that has none and does not
    overwrite the row of a lot that has one. *)
Lemma update_parking_status_overflows :
  let created :=
    update_parking_status (no_fault 20) 1 (2 ^ 63) seeded_without_status in
  let overwritten := update_parking_status (no_fault 20) 1 (2 ^ 63) stocked in
  reachable seeded_without_status /\
  status_rows_of 1 (db seeded_without_status) = [] /\
  fst created = inl "OverflowError" /\
  rows (parking_status (db (snd created))) = [] /\
  reachable stocked /\
  fst overwritten = inl "OverflowError" /\
  map (fun ps => (ps_lot_id ps, ps_occupied ps, ps_last_updated ps))
    (rows (parking_status (db (snd overwritten))))
  = [(1, Int 10, 0); (2, Int 20, 1); (3, Int 30, 2); (4, Int 40, 3)].
Proof.
  cbv zeta.
  split; [exact seeded_without_status_reachable|].
  split; [reflexivity|]. split; [vm_compute; reflexivity|].
  split; [vm_compute; reflexivity|].
  split; [exact stocked_reachable|].
  split; vm_compute; reflexivity.
Qed.

(** What the listing shows after seeding a fresh file, for any draws and
    whatever happens to the nested calls. *)
Lemma seeding_fresh envs entropy :
  let r := initialize_sample_data NoFault envs entropy fresh_world in
  fst r = inr tt /\
  db (snd r) = db seeded_without_status /\
  exists msgs,
    List.length msgs = 4%nat /\ ui (snd r) = map st_error_ev msgs.
Proof.
  cbv zeta.
  unfold initialize_sample_data, bind, create_connection, ret.
  destruct (seed_lots_cases {| fail_at := None |} (db fresh_world))
    as [[e He]|[[k Hk]|[_ Hs]]]; [vm_compute in He; discriminate
                                 |vm_compute in Hk; discriminate|].
  rewrite Hs.
  pose proof (seed_occupied_db envs entropy
                (select_lot_ids (with_sample_lots (db fresh_world))) 0
                fresh_world) as Hdb.
  destruct (seed_occupied_refused envs entropy
              (select_lot_ids (with_sample_lots (db fresh_world))) 0
              fresh_world) as [Hfst [msgs [Hlen Hui]]].
  { intros lid Hlid. vm_compute in Hlid.
    destruct Hlid as [<-|[<-|[<-|[<-|[]]]]]; unfold int64_max; lia. }
  destruct (seed_occupied envs entropy 0
              (select_lot_ids (with_sample_lots (db fresh_world)))
              fresh_world) as [[exn|u] w']; simpl in Hfst, Hdb, Hui;
    [discriminate|].
  destruct (commit_cases {| fail_at := None |}
              (3%nat, with_sample_lots (db fresh_world))) as [[e He]|Hc];
    [vm_compute in He; discriminate|].
  rewrite Hc. cbn [fst snd db ui].
  split; [reflexivity|]. split.
  - rewrite Hdb. vm_compute. reflexivity.
  - exists msgs. split; [exact Hlen|exact Hui].
Qed.

(** C10: evaluation at the failing input.  Seeding the fresh file, with no
    fault on the seeding connection and whatever the draws, stores the four
    sample lots with ids 1 to 4.  The draw for the Student Union Lot (id 3,
    capacity 40) is made from 30..60 and can be 60; but the call of
    [update_parking_status] that should store it runs while the seeding
    connection holds its uncommitted [INSERT], and stores nothing and
    returns [False] whatever the count.  After seeding there is no status
    row, every lot is listed with occupied 0, the invariant holds, and the
    page shows one error for each lot. *)
Theorem seeding_stores_no_count envs entropy :
  let r := initialize_sample_data NoFault envs entropy fresh_world in
  fst r = inr tt /\
  map (fun pl => (pl_id pl, pl_name pl, pl_capacity pl))
    (rows (parking_lots (db (snd r))))
  = [ (1, "Great Hall", 31); (2, "Faculty of Science", 200);
      (3, "Student Union Lot", 40); (4, "Athletics Field Parking", 150) ] /\
  (exists occupied,
     randint (3 * 10) (3 * 20) (entropy 2%nat) = Some occupied /\
     30 <= occupied <= 60) /\
  randint (3 * 10) (3 * 20) 30 = Some 60 /\
  (forall e occupied w,
     30 <= occupied <= 60 ->
     let nested :=
       update_parking_status (while_write_locked e) 3 occupied w in
     fst nested = inr false /\ db (snd nested) = db w) /\
  rows (parking_status (db (snd r))) = [] /\
  (forall now l, In l (lots_view now (db (snd r))) ->
                 lot_occupied l = Int 0 /\ lot_invariant l) /\
  occupancy_invariant (db (snd r)) /\
  (exists msgs,
     List.length msgs = 4%nat /\ ui (snd r) = map st_error_ev msgs).
Proof.
  cbv zeta. destruct (seeding_fresh envs entropy) as [Hfst [Hdb Hui]].
  rewrite Hdb.
  assert (Hzero : forall now l,
            In l (lots_view now (db seeded_without_status)) ->
            lot_occupied l = Int 0 /\ lot_invariant l).
  { intros now l Hl. apply In_lots_view in Hl.
    destruct Hl as [pl [[ps|] [-> [Hpl Hops]]]].
    - destruct Hops as [Hps _]. vm_compute in Hps. destruct Hps.
    - split; [reflexivity|]. unfold lot_invariant. simpl.
      vm_compute in Hpl.
      destruct Hpl as [<-|[<-|[<-|[<-|[]]]]]; simpl; lia. }
  split; [exact Hfst|]. split; [vm_compute; reflexivity|].
  split.
  { unfold randint. change (3 * 10) with 30. change (3 * 20) with 60.
    change (30 <=? 60) with true. change (60 - 30 + 1) with 31.
    eexists. split; [reflexivity|].
    pose proof (Z.mod_pos_bound (entropy 2%nat) 31). lia. }
  split; [reflexivity|]. split.
  { intros e occupied w Hocc.
    destruct (update_parking_status_locked e 3 occupied w) as [Hd [_ Hr]].
    split; [|exact Hd]. apply Hr; apply in_int64_spec;
      unfold int64_min, int64_max; lia. }
  split; [reflexivity|]. split; [exact Hzero|].
  split; [|exact Hui].
  intros now l Hl. exact (proj2 (Hzero now l Hl)).
Qed.

Lemma seeding_stores_no_count_witness :
  fst (update_parking_status (while_write_locked (no_fault 2)) 3 60
         fresh_world) = inr false /\
  rows (parking_status
          (db (snd (initialize_sample_data NoFault
                      (fun i => no_fault (Z.of_nat i)) (fun _ => 30)
                      fresh_world)))) = [].
Proof.
  destruct (seeding_stores_no_count (fun i => no_fault (Z.of_nat i))
              (fun _ => 30)) as [_ [_ [_ [_ [Hnested [Hrows _]]]]]].
  split; [|exact Hrows].
  apply (Hnested (no_fault 2) 60 fresh_world). lia.
Defined.

(** * Further properties *)

(** ** The listing: order and coverage *)

Lemma HdRel_insert_by_name x y l :
  by_name y x -> HdRel by_name y l -> HdRel by_name y (insert_by_name x l).
Proof.
  intros Hyx Hl. destruct l as [|z l]; simpl.
  - constructor. exact Hyx.
  - destruct (String.leb (pl_name (fst x)) (pl_name (fst z))).
    + constructor. exact Hyx.
    + constructor. inversion Hl; assumption.
Qed.

Lemma insert_by_name_sorted x l :
  Sorted by_name l -> Sorted by_name (insert_by_name x l).
Proof.
  induction l as [|y l IH]; simpl; intros Hs.
  - constructor; constructor.
  - destruct (String.leb (pl_name (fst x)) (pl_name (fst y))) eqn:E.
    + constructor; [assumption|]. constructor. exact E.
    + apply Sorted_inv in Hs. destruct Hs as [Hs Hhd].
      constructor; [auto|].
      apply HdRel_insert_by_name; [|assumption].
      destruct (String.leb_total (pl_name (fst x)) (pl_name (fst y))) as [H|H];
        [congruence|exact H].
Qed.

Lemma order_by_name_sorted l : Sorted by_name (order_by_name l).
Proof.
  induction l as [|x l IH]; simpl; [constructor|].
  apply insert_by_name_sorted. exact IH.
Qed.

Lemma insert_by_name_perm x l : Permutation (insert_by_name x l) (x :: l).
Proof.
  induction l as [|y l IH]; simpl; [reflexivity|].
  destruct (String.leb _ _); [reflexivity|].
  rewrite IH. apply perm_swap.
Qed.

Lemma order_by_name_perm l : Permutation (order_by_name l) l.
Proof.
  induction l as [|x l IH]; simpl; [reflexivity|].
  rewrite insert_by_name_perm. constructor. exact IH.
Qed.

Lemma Sorted_map {A B : Type} (R : A -> A -> Prop) (S : B -> B -> Prop)
    (f : A -> B) l :
  (forall x y, R x y -> S (f x) (f y)) ->
  Sorted R l -> Sorted S (map f l).
Proof.
  intros Hf Hs. induction Hs as [|a l Hs IH Hhd]; simpl; constructor; auto.
  destruct Hhd; simpl; constructor; auto.
Qed.

(** X1.  The list of lots comes ordered by name: each listed lot's name is
    at most the next one's, bytewise. *)
Theorem lots_view_sorted now d : Sorted lots_by_name (lots_view now d).
Proof.
  unfold lots_view, select_lots_with_status.
  apply (Sorted_map by_name); [|apply order_by_name_sorted].
  intros [pl ops] [pl' ops'] H. exact H.
Qed.

Lemma status_rows_of_unique lid d :
  NoDup (map ps_lot_id (rows (parking_status d))) ->
  (List.length (status_rows_of lid d) <= 1)%nat.
Proof.
  unfold status_rows_of. induction (rows (parking_status d)) as [|ps l IH];
    simpl; intros Hnd; [lia|].
  inversion Hnd as [|? ? Hnot Hnd']; subst.
  destruct (Z.eqb (ps_lot_id ps) lid) eqn:E; [|auto].
  apply Z.eqb_eq in E. simpl.
  assert (Hnil : filter (fun ps0 => Z.eqb (ps_lot_id ps0) lid) l = []).
  { destruct (filter _ l) as [|ps' rest] eqn:F; [reflexivity|].
    assert (Hin : In ps' (filter (fun ps0 => Z.eqb (ps_lot_id ps0) lid) l))
      by (rewrite F; left; reflexivity).
    apply filter_In in Hin. destruct Hin as [Hin Hid]. apply Z.eqb_eq in Hid.
    exfalso. apply Hnot. rewrite E, <- Hid. apply in_map. exact Hin. }
  rewrite Hnil. simpl. lia.
Qed.

Lemma left_join_lots d :
  NoDup (map ps_lot_id (rows (parking_status d))) ->
  map fst (left_join d) = rows (parking_lots d).
Proof.
  intros Hnd. unfold left_join.
  induction (rows (parking_lots d)) as [|pl l IH]; [reflexivity|].
  cbn [flat_map]. rewrite map_app, IH. change (pl :: l) with ([pl] ++ l)%list.
  f_equal.
  pose proof (status_rows_of_unique (pl_id pl) d Hnd) as Hlen.
  destruct (status_rows_of (pl_id pl) d) as [|ps [|ps' rest]]; simpl in *;
    [reflexivity|reflexivity|lia].
Qed.

Lemma lots_view_ids now d :
  NoDup (map ps_lot_id (rows (parking_status d))) ->
  Permutation (map lot_id (lots_view now d))
    (map pl_id (rows (parking_lots d))).
Proof.
  intros Hnd. unfold lots_view, select_lots_with_status.
  rewrite map_map.
  rewrite (map_ext (fun r => lot_id (row_to_lot now r))
             (fun r => pl_id (fst r))) by (intros [pl ops]; reflexivity).
  rewrite <- (left_join_lots d Hnd), map_map.
  apply Permutation_map. apply order_by_name_perm.
Qed.

(** X2.  Every lot is listed, with or without a status row, a lot without
    one with occupied 0; and when no lot has two status rows every lot is
    listed exactly once: the listed ids are the ids of the table,
    rearranged. *)
Theorem lots_view_covers now d :
  (forall pl, In pl (rows (parking_lots d)) ->
     exists l, In l (lots_view now d) /\
               lot_id l = pl_id pl /\ lot_name l = pl_name pl /\
               lot_capacity l = pl_capacity pl /\
               (has_status_row (pl_id pl) d = false -> lot_occupied l = Int 0)) /\
  (NoDup (map ps_lot_id (rows (parking_status d))) ->
   Permutation (map lot_id (lots_view now d))
     (map pl_id (rows (parking_lots d)))).
Proof.
  split; [|apply lots_view_ids].
  intros pl Hpl. unfold has_status_row.
  destruct (status_rows_of (pl_id pl) d) as [|ps rest] eqn:E.
  - exists (row_to_lot now (pl, None)). split; [|simpl; auto].
    apply In_lots_view. exists pl, None. auto.
  - assert (Hps : In ps (status_rows_of (pl_id pl) d))
      by (rewrite E; left; reflexivity).
    apply In_status_rows_of in Hps.
    exists (row_to_lot now (pl, Some ps)).
    split; [|simpl; repeat split; auto; discriminate].
    apply In_lots_view. exists pl, (Some ps). auto.
Qed.

Lemma lots_view_covers_witness :
  Permutation (map lot_id (lots_view 0 (db stocked))) [1; 2; 3; 4].
Proof.
  apply (proj2 (lots_view_covers 0 (db stocked))).
  apply distinct_NoDup. vm_compute. reflexivity.
Defined.

(** ** Failing calls *)

(** X3.  [get_parking_lots] never writes.  Its one statement is the
    [SELECT]: when the connection opens and the [SELECT] does not raise it
    returns the ordered listing and shows nothing; otherwise it returns the
    empty list and shows exactly one error, the connection error or "Error
    fetching parking lots" with the error's text, so that a caller cannot
    tell a failure from a database without lots. *)
Theorem get_parking_lots_outcome e w :
  let r := get_parking_lots e w in
  db (snd r) = db w /\
  (fault_hits 1 (env_fault e) = false ->
   fst r = lots_view (env_now e) (db w) /\ ui (snd r) = ui w) /\
  (fault_hits 1 (env_fault e) = true ->
   fst r = [] /\
   ui (snd r) =
     (ui w ++ [st_error_ev
                 (fault_message "Error fetching parking lots: "
                    (env_fault e))])%list).
Proof.
  destruct e as [[|err|[|k] err] now]; unfold get_parking_lots; run_call;
    repeat split; intros; try reflexivity; discriminate.
Qed.

(** X4.  [add_reservation] is all or nothing.  For a lot id that fits in
    64 bits: under a fault that hits one of its three statements (the two
    writes and the commit) or the connection, and also when the table of
    reservations has no rowid left, it returns [False], shows exactly one
    error (the fault's, when a rowid is left) and leaves the database as it
    was: no reservation row stays behind.  Otherwise it returns [True], shows nothing, appends one
    reservation row with the next rowid and the given values, adds one, as
    SQLite adds, to every status row of the lot, and leaves the lots table
    alone.  For a lot id that does not fit the call never returns [True]
    and writes nothing; with no fault it raises [OverflowError]. *)
Theorem add_reservation_all_or_nothing e lid permit plate arrival user w :
  let r := add_reservation e lid permit plate arrival user w in
  (in_int64 lid = true -> fault_hits 3 (env_fault e) = true ->
   fst r = inr false /\ db (snd r) = db w /\
   exists msg, ui (snd r) = (ui w ++ [st_error_ev msg])%list /\
     (rowid_available rs_id (reservations (db w)) = true ->
      msg = fault_message "Error creating reservation: " (env_fault e))) /\
  (in_int64 lid = true -> fault_hits 3 (env_fault e) = false ->
   rowid_available rs_id (reservations (db w)) = false ->
   fst r = inr false /\ db (snd r) = db w /\
   ui (snd r) =
     (ui w ++ [st_error_ev
                 "Error creating reservation: database or disk is full"])%list) /\
  (in_int64 lid = true -> fault_hits 3 (env_fault e) = false ->
   rowid_available rs_id (reservations (db w)) = true ->
   fst r = inr true /\ ui (snd r) = ui w /\
   parking_lots (db (snd r)) = parking_lots (db w) /\
   rows (reservations (db (snd r))) =
     (rows (reservations (db w)) ++
      [{| rs_id := next_rowid rs_id (reservations (db w));
          rs_lot_id := lid; rs_permit_type := permit;
          rs_license_plate := plate; rs_arrival_time := arrival;
          rs_reservation_time := env_now e; rs_user_id := Some user |}])%list /\
   rows (parking_status (db (snd r))) =
     map (fun ps =>
            if Z.eqb (ps_lot_id ps) lid
            then {| ps_id := ps_id ps; ps_lot_id := ps_lot_id ps;
                    ps_occupied := sql_add_one (ps_occupied ps);
                    ps_last_updated := ps_last_updated ps |}
            else ps)
         (rows (parking_status (db w)))) /\
  (in_int64 lid = false ->
   fst r <> inr true /\ db (snd r) = db w /\
   (env_fault e = NoFault -> r = (inl "OverflowError", w))).
Proof.
  destruct e as [[|err|[|[|[|k]]] err] now]; unfold add_reservation; run_call;
    destruct (in_int64 lid); simpl;
    try (destruct (rowid_available rs_id (reservations (db w))); simpl);
    repeat split; intros; try reflexivity; try discriminate;
    eexists; (split; [reflexivity|]); intros; try reflexivity;
    discriminate.
Qed.

Lemma add_reservation_all_or_nothing_witness :
  fst (add_reservation (locked 5) 1 "Student" "ABC123" "09:30" "guest" stocked)
  = inr false /\
  db (snd (add_reservation (locked 5) 1 "Student" "ABC123" "09:30" "guest"
             stocked))
  = db stocked /\
  fst (add_reservation (no_fault 5) 1 "Student" "ABC123" "09:30" "guest"
         stocked)
  = inr true /\
  add_reservation (no_fault 5) (2 ^ 63) "Student" "ABC123" "09:30" "guest"
    stocked
  = (inl "OverflowError", stocked).
Proof.
  pose proof (add_reservation_all_or_nothing (locked 5) 1 "Student" "ABC123"
                "09:30" "guest" stocked) as Hlocked.
  pose proof (add_reservation_all_or_nothing (no_fault 5) 1 "Student"
                "ABC123" "09:30" "guest" stocked) as Hok.
  pose proof (add_reservation_all_or_nothing (no_fault 5) (2 ^ 63) "Student"
                "ABC123" "09:30" "guest" stocked) as Hbig.
  cbv zeta in Hlocked, Hok, Hbig.
  destruct Hlocked as [Hlocked _].
  destruct (Hlocked eq_refl eq_refl) as [H1 [H2 _]].
  destruct Hok as [_ [_ [Hok _]]].
  destruct (Hok eq_refl eq_refl eq_refl) as [H3 _].
  destruct Hbig as [_ [_ [_ Hbig]]].
  destruct (Hbig eq_refl) as [_ [_ H4]].
  split; [exact H1|]. split; [exact H2|]. split; [exact H3|].
  exact (H4 eq_refl).
Defined.

(** ** The listing after a write *)

Lemma insert_by_name_map f x l :
  (forall r, pl_name (fst (f r)) = pl_name (fst r)) ->
  insert_by_name (f x) (map f l) = map f (insert_by_name x l).
Proof.
  intros Hf. induction l as [|y l IH]; simpl; [reflexivity|].
  rewrite !Hf. destruct (String.leb _ _); simpl; [reflexivity|].
  rewrite IH. reflexivity.
Qed.

Lemma order_by_name_map f l :
  (forall r, pl_name (fst (f r)) = pl_name (fst r)) ->
  order_by_name (map f l) = map f (order_by_name l).
Proof.
  intros Hf. induction l as [|x l IH]; simpl; [reflexivity|].
  rewrite IH. apply insert_by_name_map. exact Hf.
Qed.

Lemma filter_map_same {A : Type} (p : A -> bool) (f : A -> A) l :
  (forall x, p (f x) = p x) ->
  filter p (map f l) = map f (filter p l).
Proof.
  intros Hp. induction l as [|x l IH]; simpl; [reflexivity|].
  rewrite Hp. destruct (p x); simpl; rewrite IH; reflexivity.
Qed.

(** An [UPDATE] of status rows that keeps their [lot_id] changes the joined
    rows in place. *)
Lemma left_join_update_rows f d :
  (forall ps, ps_lot_id (f ps) = ps_lot_id ps) ->
  left_join (set_parking_status d (update_rows f (parking_status d))) =
  map (fun r => (fst r, option_map f (snd r))) (left_join d).
Proof.
  intros Hf. unfold left_join. simpl.
  induction (rows (parking_lots d)) as [|pl l IH]; [reflexivity|].
  cbn [flat_map]. rewrite map_app, IH. f_equal.
  unfold status_rows_of. simpl.
  rewrite filter_map_same by (intros ps; rewrite Hf; reflexivity).
  destruct (filter _ (rows (parking_status d))) as [|ps rest]; simpl;
    [reflexivity|].
  rewrite !map_map. reflexivity.
Qed.

Lemma lots_view_reserved_map now lid form t d :
  lots_view now (reserved lid form t d) =
  map (fun l =>
         if Z.eqb (lot_id l) lid && has_status_row lid d
         then with_status l (sql_add_one (lot_occupied l)) (lot_last_updated l)
         else l)
      (lots_view now d).
Proof.
  unfold lots_view, select_lots_with_status, reserved, increment_occupied.
  set (inc := fun ps : parking_status_row =>
                if Z.eqb (ps_lot_id ps) lid
                then {| ps_id := ps_id ps; ps_lot_id := ps_lot_id ps;
                        ps_occupied := sql_add_one (ps_occupied ps);
                        ps_last_updated := ps_last_updated ps |}
                else ps).
  assert (Hinc : forall ps, ps_lot_id (inc ps) = ps_lot_id ps)
    by (intros ps; unfold inc; destruct (Z.eqb _ _); reflexivity).
  change (left_join _) with
    (left_join (set_parking_status d (update_rows inc (parking_status d))))
    at 1.
  rewrite (left_join_update_rows inc d Hinc).
  rewrite order_by_name_map by (intros [pl ops]; reflexivity).
  rewrite !map_map. apply map_ext_in. intros [pl ops] Hin.
  apply In_order_by_name, In_left_join in Hin. destruct Hin as [Hpl Hops].
  destruct ops as [ps|]; simpl.
  - destruct Hops as [Hps Hid]. unfold inc. rewrite Hid.
    destruct (Z.eqb (pl_id pl) lid) eqn:E; simpl; [|reflexivity].
    apply Z.eqb_eq in E.
    assert (Hrow : has_status_row lid d = true).
    { apply has_status_row_true. rewrite status_rows_of_nil.
      intros H. apply (H ps Hps). congruence. }
    rewrite Hrow. reflexivity.
  - destruct (Z.eqb (pl_id pl) lid) eqn:E; simpl; [|reflexivity].
    apply Z.eqb_eq in E. subst lid.
    unfold has_status_row. rewrite Hops. reflexivity.
Qed.

(** X5.  After an [add_reservation] that meets no fault, for a lot id that
    fits in 64 bits and with a rowid left for the reservation,
    [get_parking_lots] returns what it returned before, in the same order,
    with one added, as SQLite adds, to the occupied count in the entries of
    the reserved lot if that lot has a status row; every other entry, and
    every entry when the lot has no status row, is as before.  Adding one
    gives the next integer below the greatest 64-bit integer, and the
    float [2**63] at it. *)
Theorem get_parking_lots_after_add_reservation t now lid permit plate
    arrival w :
  in_int64 lid = true ->
  rowid_available rs_id (reservations (db w)) = true ->
  let w' := snd (add_reservation (no_fault t) lid permit plate arrival
                   "guest" w) in
  fst (get_parking_lots (no_fault now) w') =
  map (fun l =>
         if Z.eqb (lot_id l) lid && has_status_row lid (db w)
         then with_status l (sql_add_one (lot_occupied l)) (lot_last_updated l)
         else l)
      (fst (get_parking_lots (no_fault now) w)) /\
  (forall occupied, occupied < int64_max ->
     sql_add_one (Int occupied) = Int (occupied + 1)) /\
  sql_add_one (Int int64_max) = Real 9223372036854775808%float.
Proof.
  intros Hlid Hrow w'. subst w'. split; [|split].
  - rewrite !get_parking_lots_no_fault. cbn [fst].
    pose proof (add_reservation_no_fault t lid
                  {| permit_type := permit; license_plate := plate;
                     arrival_time := arrival |} w Hlid Hrow) as E.
    cbn [permit_type license_plate arrival_time] in E. rewrite E.
    cbn [snd db]. apply lots_view_reserved_map.
  - apply sql_add_one_Int.
  - vm_compute. reflexivity.
Qed.

Lemma get_parking_lots_after_add_reservation_witness :
  map (fun l => (lot_id l, lot_occupied l))
    (fst (get_parking_lots (no_fault 9)
            (snd (add_reservation (no_fault 8) 1 "Student" "ABC123" "09:30"
                    "guest" stocked))))
  = [(4, Int 40); (2, Int 20); (1, Int 11); (3, Int 30)].
Proof.
  rewrite (proj1 (get_parking_lots_after_add_reservation 8 9 1 "Student"
                    "ABC123" "09:30" stocked eq_refl eq_refl)).
  vm_compute. reflexivity.
Defined.

Lemma status_rows_of_insert_status lid' lid n t d :
  status_rows_of lid' (insert_status lid n t d) =
  (status_rows_of lid' d ++
   if Z.eqb lid lid'
   then [{| ps_id := next_rowid ps_id (parking_status d); ps_lot_id := lid;
            ps_occupied := Int n; ps_last_updated := t |}]
   else [])%list.
Proof.
  unfold status_rows_of. simpl. rewrite filter_app. simpl.
  destruct (Z.eqb lid lid'); reflexivity.
Qed.

Lemma left_join_insert_status lid n t d :
  status_rows_of lid d = [] ->
  left_join (insert_status lid n t d) =
  map (fun r =>
         if Z.eqb (pl_id (fst r)) lid
         then (fst r,
               Some {| ps_id := next_rowid ps_id (parking_status d);
                       ps_lot_id := lid; ps_occupied := Int n;
                       ps_last_updated := t |})
         else r)
      (left_join d).
Proof.
  intros Hnil. unfold left_join.
  change (rows (parking_lots (insert_status lid n t d)))
    with (rows (parking_lots d)).
  induction (rows (parking_lots d)) as [|pl l IH]; [reflexivity|].
  cbn [flat_map]. rewrite map_app, IH. f_equal.
  rewrite status_rows_of_insert_status. rewrite (Z.eqb_sym lid).
  destruct (Z.eqb (pl_id pl) lid) eqn:E.
  - pose proof E as E'. apply Z.eqb_eq in E'. rewrite E', Hnil. simpl.
    rewrite E'. rewrite Z.eqb_refl. reflexivity.
  - rewrite app_nil_r.
    destruct (status_rows_of (pl_id pl) d) as [|ps rest]; simpl.
    + rewrite E. reflexivity.
    + rewrite E, map_map. simpl. f_equal.
      apply map_ext. intros ps'. rewrite E. reflexivity.
Qed.

Lemma lots_view_upsert_status_map now lid n t d :
  lots_view now (upsert_status lid n t d) =
  map (fun l => if Z.eqb (lot_id l) lid then with_status l (Int n) t else l)
      (lots_view now d).
Proof.
  unfold lots_view, select_lots_with_status, upsert_status.
  destruct (fetchone (select_status_ids lid d)) as [i|] eqn:E.
  - unfold update_status.
    set (upd := fun ps : parking_status_row =>
                  if Z.eqb (ps_lot_id ps) lid
                  then {| ps_id := ps_id ps; ps_lot_id := ps_lot_id ps;
                          ps_occupied := Int n; ps_last_updated := t |}
                  else ps).
    assert (Hupd : forall ps, ps_lot_id (upd ps) = ps_lot_id ps)
      by (intros ps; unfold upd; destruct (Z.eqb _ _); reflexivity).
    rewrite (left_join_update_rows upd d Hupd).
    rewrite order_by_name_map by (intros [pl ops]; reflexivity).
    rewrite !map_map. apply map_ext_in. intros [pl ops] Hin.
    apply In_order_by_name, In_left_join in Hin. destruct Hin as [Hpl Hops].
    destruct ops as [ps|]; simpl.
    + destruct Hops as [Hps Hid]. unfold upd. rewrite Hid.
      destruct (Z.eqb (pl_id pl) lid); reflexivity.
    + destruct (Z.eqb (pl_id pl) lid) eqn:E'; [|reflexivity].
      apply Z.eqb_eq in E'. subst lid.
      apply fetchone_select_status_ids in Hops. congruence.
  - apply fetchone_select_status_ids in E.
    rewrite (left_join_insert_status lid n t d E).
    rewrite order_by_name_map
      by (intros [pl ops]; simpl; destruct (Z.eqb _ _); reflexivity).
    rewrite !map_map. apply map_ext_in. intros [pl ops] Hin.
    apply In_order_by_name, In_left_join in Hin. destruct Hin as [Hpl Hops].
    simpl. destruct (Z.eqb (pl_id pl) lid) eqn:E'; [|reflexivity].
    apply Z.eqb_eq in E'. subst lid.
    destruct ops as [ps|]; [|reflexivity].
    destruct Hops as [Hps Hid]. rewrite status_rows_of_nil in E.
    exfalso. exact (E ps Hps Hid).
Qed.

(** X6.  After an [update_parking_status] that meets no fault, for a lot
    id and a number that fit in 64 bits and with a rowid left when the lot
    has no status row, [get_parking_lots] returns what it returned before,
    in the same order, with the given number and the time of the update in
    every entry of that lot, whether the status row was created or
    overwritten; the other entries are as before. *)
Theorem get_parking_lots_after_update t now lid n w :
  update_writes lid n (db w) = true ->
  let w' := snd (update_parking_status (no_fault t) lid n w) in
  fst (get_parking_lots (no_fault now) w') =
  map (fun l => if Z.eqb (lot_id l) lid then with_status l (Int n) t else l)
      (fst (get_parking_lots (no_fault now) w)).
Proof.
  intros Hw w'. subst w'. rewrite !get_parking_lots_no_fault. cbn [fst].
  rewrite update_parking_status_no_fault by exact Hw. cbn [snd db].
  apply lots_view_upsert_status_map.
Qed.

Lemma get_parking_lots_after_update_witness :
  map (fun l => (lot_id l, lot_occupied l, lot_last_updated l))
    (fst (get_parking_lots (no_fault 9)
            (snd (update_parking_status (no_fault 8) 3 35 stocked))))
  = [(4, Int 40, 3); (2, Int 20, 1); (1, Int 10, 0); (3, Int 35, 8)].
Proof.
  rewrite (get_parking_lots_after_update 8 9 3 35 stocked eq_refl).
  vm_compute. reflexivity.
Defined.

(** ** Reserving until the lot is full *)

Lemma st_selectbox_map {A B : Type} (f : A -> B) options choice :
  st_selectbox (map f options) choice
  = option_map f (st_selectbox options choice).
Proof.
  destruct options as [|first rest]; [reflexivity|].
  unfold st_selectbox. cbn [map option_map]. f_equal.
  change (f first :: map f rest) with (map f (first :: rest)).
  apply map_nth.
Qed.

Lemma st_selectbox_lots_view_now t t' d choice l :
  st_selectbox (lots_view t d) choice = Some l ->
  has_status_row (lot_id l) d = true ->
  st_selectbox (lots_view t' d) choice = Some l.
Proof.
  unfold lots_view. rewrite !st_selectbox_map.
  destruct (st_selectbox (select_lots_with_status d) choice) as [[pl ops]|]
    eqn:E; simpl; [|discriminate].
  intros H Hrow. injection H as <-. f_equal.
  destruct ops as [ps|]; [reflexivity|].
  apply st_selectbox_In, In_order_by_name, In_left_join in E.
  destruct E as [_ Hnil]. simpl in Hrow.
  unfold has_status_row in Hrow. rewrite Hnil in Hrow. discriminate.
Qed.

Lemma has_status_row_reserved lid lid' form t d :
  has_status_row lid (reserved lid' form t d) = has_status_row lid d.
Proof.
  unfold has_status_row, reserved, increment_occupied, status_rows_of.
  simpl. rewrite filter_map_same
    by (intros ps; simpl; destruct (Z.eqb (ps_lot_id ps) lid'); reflexivity).
  destruct (filter _ _); reflexivity.
Qed.

Lemma max_rowid_app ids i :
  max_rowid (ids ++ [i]) = Z.max (max_rowid ids) (Z.max i 0).
Proof.
  unfold max_rowid. induction ids as [|x ids IH]; simpl; [lia|].
  rewrite IH. lia.
Qed.

Lemma max_rowid_nonneg ids : 0 <= max_rowid ids.
Proof.
  unfold max_rowid. induction ids as [|x ids IH]; simpl; lia.
Qed.

(** Each insert moves the next rowid up by one. *)
Lemma next_rowid_insert_row {row : Type} (rowid : row -> Z) (mk : Z -> row)
    (t : table row) :
  (forall i, rowid (mk i) = i) ->
  next_rowid rowid (insert_row rowid mk t) = next_rowid rowid t + 1.
Proof.
  intros Hmk. unfold next_rowid, insert_row. cbn [rows seq].
  rewrite map_app. cbn [map]. rewrite Hmk, max_rowid_app.
  pose proof (max_rowid_nonneg (map rowid (rows t))).
  unfold next_rowid. lia.
Qed.

Lemma next_rowid_reserved lid form t d :
  next_rowid rs_id (reservations (reserved lid form t d))
  = next_rowid rs_id (reservations d) + 1.
Proof.
  unfold reserved, increment_occupied, insert_reservation.
  cbn [reservations set_parking_status set_reservations].
  apply next_rowid_insert_row. reflexivity.
Qed.

Lemma py_gt_Int z k : py_gt (Int z) k = true <-> z > k.
Proof.
  simpl. rewrite Z.gtb_ltb, Z.ltb_lt. lia.
Qed.

Lemma reserve_view_confirmed t1 t2 choice form w l :
  st_selectbox (lots_view t1 (db w)) choice = Some l ->
  py_gt (available l) 0 = true ->
  in_int64 (lot_id l) = true ->
  rowid_available rs_id (reservations (db w)) = true ->
  reserve_view (no_fault t1) choice (Some form) (no_fault t2) w =
  (inr tt,
   {| db := reserved (lot_id l) form t2 (db w);
      ui := ui w ++ [st_success_ev "Reservation confirmed!"] |}).
Proof.
  intros Hsel Hav Hid Hrow. unfold reserve_view, bind, available in *.
  rewrite get_parking_lots_no_fault, Hsel, Hav.
  rewrite (add_reservation_no_fault t2 (lot_id l) form w Hid Hrow).
  reflexivity.
Qed.

Lemma reserve_view_rejected t1 choice submitted e_res w l :
  st_selectbox (lots_view t1 (db w)) choice = Some l ->
  py_gt (available l) 0 = false ->
  reserve_view (no_fault t1) choice submitted e_res w =
  (inr tt,
   {| db := db w;
      ui := ui w ++ [st_error_ev "No available spots in this lot"] |}).
Proof.
  intros Hsel Hav. unfold reserve_view, bind, available in *.
  rewrite get_parking_lots_no_fault, Hsel, Hav. reflexivity.
Qed.

Lemma reserve_repeatedly_spec times : forall choice form w l occupied t0,
  st_selectbox (lots_view t0 (db w)) choice = Some l ->
  has_status_row (lot_id l) (db w) = true ->
  lot_occupied l = Int occupied ->
  Z.of_nat (List.length times) <= lot_capacity l - occupied ->
  in_int64 (lot_id l) = true ->
  lot_capacity l <= int64_max ->
  next_rowid rs_id (reservations (db w)) + Z.of_nat (List.length times)
    <= int64_max + 1 ->
  let w' := reserve_repeatedly times choice form w in
  (forall t, st_selectbox (lots_view t (db w')) choice =
             Some (with_status l
                     (Int (occupied + Z.of_nat (List.length times)))
                     (lot_last_updated l))) /\
  has_status_row (lot_id l) (db w') = true /\
  List.length (rows (reservations (db w'))) =
    (List.length (rows (reservations (db w))) + List.length times)%nat /\
  ui w' =
    (ui w ++ repeat (st_success_ev "Reservation confirmed!")
               (List.length times))%list.
Proof.
  induction times as [|[t1 t2] times IH];
    intros choice form w l occupied t0 Hsel Hrow Hocc Hlen Hid Hcap Hrowid.
  - simpl. rewrite app_nil_r. repeat split; auto.
    intros t. rewrite (st_selectbox_lots_view_now t0 t _ _ _ Hsel Hrow).
    destruct l. unfold with_status. simpl in *. rewrite Z.add_0_r, Hocc.
    reflexivity.
  - cbn [List.length] in Hlen, Hrowid. rewrite Nat2Z.inj_succ in Hlen, Hrowid.
    pose proof (st_selectbox_lots_view_now t0 t1 _ _ _ Hsel Hrow) as Hsel1.
    unfold reserve_repeatedly. cbn [fold_left fst snd].
    rewrite (reserve_view_confirmed t1 t2 choice form w l Hsel1).
    2:{ unfold available. rewrite Hocc. apply py_gt_Int. lia. }
    2:{ exact Hid. }
    2:{ unfold rowid_available. apply Z.leb_le. lia. }
    cbn [snd].
    set (w1 := {| db := reserved (lot_id l) form t2 (db w);
                  ui := ui w ++ [st_success_ev "Reservation confirmed!"] |}).
    set (l1 := with_status l (Int (occupied + 1)) (lot_last_updated l)).
    assert (Hsel' : st_selectbox (lots_view t0 (db w1)) choice = Some l1).
    { unfold w1. cbn [db]. rewrite lots_view_reserved_map, st_selectbox_map, Hsel.
      simpl. rewrite Z.eqb_refl, Hrow. simpl. rewrite Hocc.
      rewrite sql_add_one_Int by lia. reflexivity. }
    assert (Hrow' : has_status_row (lot_id l1) (db w1) = true)
      by (unfold w1, l1; cbn [db lot_id with_status];
          rewrite has_status_row_reserved; exact Hrow).
    assert (Hocc' : lot_occupied l1 = Int (occupied + 1)) by reflexivity.
    assert (Hlen' : Z.of_nat (List.length times)
                    <= lot_capacity l1 - (occupied + 1))
      by (unfold l1; simpl; lia).
    assert (Hrowid' : next_rowid rs_id (reservations (db w1))
                      + Z.of_nat (List.length times) <= int64_max + 1)
      by (unfold w1; cbn [db]; rewrite next_rowid_reserved; lia).
    specialize (IH choice form w1 l1 (occupied + 1) t0 Hsel' Hrow' Hocc' Hlen'
                  Hid Hcap Hrowid').
    cbv zeta in IH. unfold reserve_repeatedly in IH.
    destruct IH as [IH1 [IH2 [IH3 IH4]]].
    split; [|split; [|split]].
    + intros t. rewrite IH1.
      assert (Hz : occupied + 1 + Z.of_nat (List.length times)
                   = occupied + Z.of_nat (S (List.length times)))
        by (rewrite Nat2Z.inj_succ; lia).
      unfold l1, with_status.
      cbn [lot_id lot_name lot_capacity lot_rate lot_location lot_coords
           lot_special lot_occupied lot_last_updated List.length].
      rewrite Hz. reflexivity.
    + exact IH2.
    + rewrite IH3. unfold w1, reserved. simpl. rewrite length_app. simpl.
      lia.
    + rewrite IH4. unfold w1. cbn [ui List.length repeat].
      rewrite <- app_assoc. reflexivity.
Qed.

(** X7.  A lot that has a status row can be reserved exactly as often as
    it has available spots.  Using the reserve view again and again on the
    same choice, with no storage fault, on a lot whose id and capacity fit
    in 64 bits and while rowids are left for the reservations, every use up
    to the number of available spots is confirmed, stores one reservation
    and adds one to the lot's occupied count, the lot keeping its place in
    the listing; and once the uses equal the available spots, the next use
    is refused with "No available spots in this lot" and writes nothing,
    whatever the form and the storage would do. *)
Theorem reserve_until_full times choice form w l occupied t0 :
  st_selectbox (lots_view t0 (db w)) choice = Some l ->
  has_status_row (lot_id l) (db w) = true ->
  lot_occupied l = Int occupied ->
  Z.of_nat (List.length times) <= lot_capacity l - occupied ->
  in_int64 (lot_id l) = true ->
  lot_capacity l <= int64_max ->
  next_rowid rs_id (reservations (db w)) + Z.of_nat (List.length times)
    <= int64_max + 1 ->
  let w' := reserve_repeatedly times choice form w in
  (forall t, st_selectbox (lots_view t (db w')) choice =
             Some (with_status l
                     (Int (occupied + Z.of_nat (List.length times)))
                     (lot_last_updated l))) /\
  List.length (rows (reservations (db w'))) =
    (List.length (rows (reservations (db w))) + List.length times)%nat /\
  ui w' =
    (ui w ++ repeat (st_success_ev "Reservation confirmed!")
               (List.length times))%list /\
  (Z.of_nat (List.length times) = lot_capacity l - occupied ->
   forall t submitted e_res,
     reserve_view (no_fault t) choice submitted e_res w' =
     (inr tt,
      {| db := db w';
         ui := ui w' ++ [st_error_ev "No available spots in this lot"] |})).
Proof.
  intros Hsel Hrow Hocc Hlen Hid Hcap Hrowid w'.
  destruct (reserve_repeatedly_spec times choice form w l occupied t0 Hsel
              Hrow Hocc Hlen Hid Hcap Hrowid) as [H1 [H2 [H3 H4]]].
  fold w' in H1, H2, H3, H4.
  split; [exact H1|]. split; [exact H3|]. split; [exact H4|].
  intros Hfull t submitted e_res.
  apply (reserve_view_rejected t choice submitted e_res w' _ (H1 t)).
  unfold available. simpl. rewrite Z.gtb_ltb. apply Z.ltb_ge. lia.
Qed.

Lemma reserve_until_full_witness :
  let times := map (fun i => (Z.of_nat i, Z.of_nat i)) (List.seq 0 21) in
  let w' := reserve_repeatedly times 2 sample_form stocked in
  option_map (fun l => (lot_name l, lot_capacity l, lot_occupied l))
    (st_selectbox (lots_view 0 (db w')) 2)
  = Some ("Great Hall", 31, Int 31) /\
  List.length (rows (reservations (db w'))) = 21%nat /\
  reserve_view (no_fault 50) 2 (Some sample_form) (no_fault 51) w' =
  (inr tt,
   {| db := db w';
      ui := ui w' ++ [st_error_ev "No available spots in this lot"] |}).
Proof.
  intros times w'.
  assert (Hsel : st_selectbox (lots_view 0 (db stocked)) 2
                 = Some (example_lot 31 10))
    by (vm_compute; reflexivity).
  assert (Hrow : has_status_row (lot_id (example_lot 31 10)) (db stocked)
                 = true)
    by (vm_compute; reflexivity).
  assert (Hlen : Z.of_nat (List.length times)
                 <= lot_capacity (example_lot 31 10) - 10)
    by (vm_compute; discriminate).
  assert (Hcap : lot_capacity (example_lot 31 10) <= int64_max)
    by (vm_compute; discriminate).
  assert (Hrowid : next_rowid rs_id (reservations (db stocked))
                   + Z.of_nat (List.length times) <= int64_max + 1)
    by (vm_compute; discriminate).
  destruct (reserve_until_full times 2 sample_form stocked
              (example_lot 31 10) 10 0 Hsel Hrow eq_refl Hlen eq_refl Hcap
              Hrowid) as [H1 [H2 [_ H4]]].
  fold w' in H1, H2, H4.
  split; [rewrite H1; vm_compute; reflexivity|].
  split; [rewrite H2; vm_compute; reflexivity|].
  apply H4. vm_compute. reflexivity.
Defined.

(** ** Seeding *)

(** X8.  [initialize_sample_data] seeds only an empty lots table: when
    [parking_lots] has a row, the call returns without writing anything,
    whatever the fault, the clock and the draws, so that later runs of the
    script keep the stored lots and their occupancy. *)
Theorem initialize_sample_data_skips f envs entropy w :
  rows (parking_lots (db w)) <> [] ->
  fst (initialize_sample_data f envs entropy w) = inr tt /\
  db (snd (initialize_sample_data f envs entropy w)) = db w.
Proof.
  intros Hrows.
  assert (Hcount : Z.eqb (count_lots (db w)) 0 = false).
  { unfold count_lots. destruct (rows (parking_lots (db w)));
      [congruence|reflexivity]. }
  destruct f as [|err|[|k] err];
    unfold initialize_sample_data, seed_lots; run_call;
    rewrite ?Hcount; simpl; auto.
Qed.

Lemma initialize_sample_data_skips_witness :
  db (snd (initialize_sample_data NoFault (fun i => no_fault (Z.of_nat i))
             (fun _ => 7) stocked))
  = db stocked.
Proof.
  apply (initialize_sample_data_skips NoFault (fun i => no_fault (Z.of_nat i))
           (fun _ => 7) stocked).
  vm_compute. discriminate.
Defined.

Lemma next_rowid_insert_lot values d :
  next_rowid pl_id (parking_lots (insert_lot values d))
  = next_rowid pl_id (parking_lots d) + 1.
Proof.
  destruct values as [[[[[[name capacity] rate] location] lat] lon] info].
  unfold insert_lot. cbn [parking_lots set_parking_lots].
  apply next_rowid_insert_row. reflexivity.
Qed.

Lemma executemany_insert_lots_ok params : forall d,
  next_rowid pl_id (parking_lots d) + Z.of_nat (List.length params)
    <= int64_max + 1 ->
  executemany
    (fun values => insert_into pl_id parking_lots (insert_lot values))
    params d
  = inr (tt, fold_left (fun d' values => insert_lot values d') params d).
Proof.
  induction params as [|p rest IH]; intros d Hn; [reflexivity|].
  cbn [List.length] in Hn. rewrite Nat2Z.inj_succ in Hn.
  cbn [executemany fold_left]. unfold insert_into at 1.
  assert (E : rowid_available pl_id (parking_lots d) = true)
    by (unfold rowid_available; apply Z.leb_le; lia).
  rewrite E. apply IH. rewrite next_rowid_insert_lot. lia.
Qed.

Lemma seed_lots_ok d :
  rows (parking_lots d) = [] ->
  Z.max (seq (parking_lots d)) 0 + 4 <= int64_max ->
  seed_lots {| fail_at := None |} (0%nat, d) =
  inr (Some (select_lot_ids (with_sample_lots d)),
       (3%nat, with_sample_lots d)).
Proof.
  intros Hrows Hseq.
  unfold seed_lots, tbind, query, execute, raises, tret.
  cbn [fail_at fst snd forallb]. unfold count_lots. rewrite Hrows.
  cbn [List.length Z.of_nat Z.eqb].
  replace (forallb in_int64 (flat_map sample_integers sample_lots))
    with true by reflexivity.
  rewrite executemany_insert_lots_ok.
  - reflexivity.
  - cbn [snd]. unfold next_rowid, max_rowid. rewrite Hrows.
    cbn [map fold_right].
    change (Z.of_nat (List.length sample_lots)) with 4. lia.
Qed.

(** X9.  Seeding a database whose lots table is empty, with no fault on the
    seeding connection and while twenty times the new ids fit in 64 bits:
    the four sample lots are stored with consecutive ids starting after the
    table's sequence, and that is all.  Every status write of the loop is
    refused, whatever the draws, the clock and the faults of the nested
    calls: the page shows one error for each lot, and the status rows and
    the reservations are the ones before. *)
Theorem seeding_stores_lots_only envs entropy w :
  rows (parking_lots (db w)) = [] ->
  let first := Z.max (seq (parking_lots (db w))) 0 + 1 in
  20 * (first + 3) <= int64_max ->
  let r := initialize_sample_data NoFault envs entropy w in
  fst r = inr tt /\
  parking_status (db (snd r)) = parking_status (db w) /\
  reservations (db (snd r)) = reservations (db w) /\
  map (fun pl => (pl_id pl, pl_name pl, pl_capacity pl))
    (rows (parking_lots (db (snd r))))
  = [ (first, "Great Hall", 31);
      (first + 1, "Faculty of Science", 200);
      (first + 2, "Student Union Lot", 40);
      (first + 3, "Athletics Field Parking", 150) ] /\
  exists msgs,
    List.length msgs = 4%nat /\
    ui (snd r) = (ui w ++ map st_error_ev msgs)%list.
Proof.
  intros Hrows first Hfits r.
  pose proof (with_sample_lots_rows (db w) Hrows) as Hlots.
  cbv zeta in Hlots. fold first in Hlots.
  set (d2 := with_sample_lots (db w)) in *.
  assert (Hfirst : 1 <= first) by (unfold first; lia).
  assert (Hids : select_lot_ids d2 = [first; first + 1; first + 2; first + 3]).
  { unfold select_lot_ids.
    apply (f_equal (map (fun x : Z * string * Z => fst (fst x)))) in Hlots.
    rewrite map_map in Hlots. exact Hlots. }
  pose proof (seed_occupied_db envs entropy (select_lot_ids d2) 0 w) as Hdb.
  destruct (seed_occupied_refused envs entropy (select_lot_ids d2) 0 w)
    as [Hfst [msgs [Hlen Hui]]].
  { rewrite Hids. intros lid H. cbn [In] in H. lia. }
  rewrite Hids in Hlen. cbn [List.length] in Hlen.
  subst r. unfold initialize_sample_data, bind, create_connection, ret.
  rewrite (seed_lots_ok (db w) Hrows) by (fold first; lia). fold d2.
  destruct (seed_occupied envs entropy 0 (select_lot_ids d2) w)
    as [[exn|u] w']; simpl in Hfst, Hdb, Hui; [discriminate|].
  unfold commit, execute, raises. cbn [fail_at fst snd forallb db ui].
  rewrite Hdb. split; [reflexivity|]. split; [reflexivity|].
  split; [reflexivity|]. split; [exact Hlots|].
  exists msgs. split; [exact Hlen|exact Hui].
Qed.

Lemma seeding_stores_lots_only_witness :
  map (fun pl => (pl_id pl, pl_name pl, pl_capacity pl))
    (rows (parking_lots
             (db (snd (initialize_sample_data NoFault
                         (fun i => no_fault (Z.of_nat i)) (fun _ => 30)
                         fresh_world)))))
  = [ (1, "Great Hall", 31); (2, "Faculty of Science", 200);
      (3, "Student Union Lot", 40); (4, "Athletics Field Parking", 150) ] /\
  parking_status
    (db (snd (initialize_sample_data NoFault
                (fun i => no_fault (Z.of_nat i)) (fun _ => 30) fresh_world)))
  = parking_status (db fresh_world).
Proof.
  assert (Hfits : 20 * (Z.max (seq (parking_lots (db fresh_world))) 0 + 1 + 3)
                  <= int64_max) by (vm_compute; discriminate).
  destruct (seeding_stores_lots_only (fun i => no_fault (Z.of_nat i))
              (fun _ => 30) fresh_world eq_refl Hfits)
    as [_ [Hstatus [_ [Hlots _]]]].
  split; [exact Hlots|exact Hstatus].
Defined.

(** ** The admin view *)

(** X10.  Without the admin password nothing is updated: for every
    password other than "campus123" the admin view shows "Incorrect
    password" and stops, and the database is the one before, whatever was
    clicked and entered. *)
Theorem admin_view_wrong_password e_list password clicked e_upd w :
  password <> "campus123" ->
  let r := admin_view e_list password clicked e_upd w in
  fst r = inr tt /\
  db (snd r) = db w /\
  ui (snd r) =
    (ui (snd (get_parking_lots e_list w))
     ++ [st_error_ev "Incorrect password"])%list.
Proof.
  intros Hpw r. subst r. unfold admin_view, bind.
  pose proof (get_parking_lots_db e_list w) as Hdb.
  destruct (get_parking_lots e_list w) as [lots w1]. simpl in Hdb |- *.
  apply String.eqb_neq in Hpw. rewrite Hpw. simpl. auto.
Qed.

Lemma admin_view_wrong_password_witness :
  db (snd (admin_view (no_fault 10) "campus124" (Some (2%nat, 25))
             (no_fault 11) stocked))
  = db stocked.
Proof.
  apply (admin_view_wrong_password (no_fault 10) "campus124"
           (Some (2%nat, 25)) (no_fault 11) stocked).
  discriminate.
Defined.

(** X11.  With the password, a click on "Update" for a listed lot that
    meets no storage fault stores the entered number, when the lot's id
    and the number fit in 64 bits and, for a lot without a status row, a
    rowid is left: the page shows "Admin access granted" and "Updated
    successfully!", and the next listing is the old one with that number,
    and the time of the update, in the entries of the clicked lot. *)
Theorem admin_view_updates t1 t2 i n w l :
  nth_error (lots_view t1 (db w)) i = Some l ->
  update_writes (lot_id l) n (db w) = true ->
  let r := admin_view (no_fault t1) "campus123" (Some (i, n)) (no_fault t2) w in
  fst r = inr tt /\
  ui (snd r) =
    (ui w ++ [st_success_ev "Admin access granted";
              st_success_ev "Updated successfully!"])%list /\
  forall now,
    lots_view now (db (snd r)) =
    map (fun l' => if Z.eqb (lot_id l') (lot_id l)
                   then with_status l' (Int n) t2 else l')
        (lots_view now (db w)).
Proof.
  intros Hnth Hw r. subst r. unfold admin_view, bind, st_success.
  rewrite get_parking_lots_no_fault.
  change (negb (String.eqb "campus123" "campus123")) with false.
  cbv iota beta. rewrite Hnth.
  rewrite !update_parking_status_no_fault by exact Hw. simpl.
  split; [reflexivity|]. split.
  - rewrite <- app_assoc. reflexivity.
  - intros now. apply lots_view_upsert_status_map.
Qed.

Lemma admin_view_updates_witness :
  map (fun l => (lot_id l, lot_occupied l))
    (lots_view 0
       (db (snd (admin_view (no_fault 10) "campus123" (Some (2%nat, 25))
                   (no_fault 11) stocked))))
  = [(4, Int 40); (2, Int 20); (1, Int 25); (3, Int 30)].
Proof.
  rewrite (proj2 (proj2 (admin_view_updates 10 11 2 25 stocked
                           (example_lot 31 10) eq_refl eq_refl)) 0).
  vm_compute. reflexivity.
Defined.

(** ** What the two operations never touch *)

Lemma next_rowid_fresh {row : Type} (rowid : row -> Z) (t : table row) r :
  In r (rows t) -> rowid r < next_rowid rowid t.
Proof.
  unfold next_rowid, max_rowid. intros Hin.
  assert (H : rowid r <= fold_right Z.max 0 (map rowid (rows t))).
  { induction (rows t) as [|x l IH]; simpl; [destruct Hin|].
    destruct Hin as [->|Hin]; [lia|]. specialize (IH Hin). lia. }
  lia.
Qed.

(** X12.  Neither the reserve view nor the admin view's status tab ever
    changes the lots table (names and capacities stay as stored), removes
    or rewrites a reservation, or removes a status row or moves it to
    another lot: reservations and status rows are only appended, at most
    one per use. *)
Theorem run_action_append_only a w :
  parking_lots (db (run_action a w)) = parking_lots (db w) /\
  (exists added,
     rows (reservations (db (run_action a w))) =
       (rows (reservations (db w)) ++ added)%list /\
     (List.length added <= 1)%nat) /\
  (exists added,
     map (fun ps => (ps_id ps, ps_lot_id ps))
       (rows (parking_status (db (run_action a w)))) =
       (map (fun ps => (ps_id ps, ps_lot_id ps))
          (rows (parking_status (db w))) ++ added)%list /\
     (List.length added <= 1)%nat).
Proof.
  destruct a as [el c s er|el p c eu]; simpl.
  - destruct (reserve_view_db el c s er w) as [->|[l [form [_ [_ ->]]]]].
    + split; [reflexivity|].
      split; exists []; rewrite app_nil_r; auto.
    + split; [reflexivity|]. split.
      * eexists. split; [reflexivity|]. simpl. lia.
      * exists []. rewrite app_nil_r. split; [|auto]. simpl.
        rewrite map_map. apply map_ext. intros ps.
        destruct (Z.eqb _ _); reflexivity.
  - destruct (admin_view_db el p c eu w)
      as [->|[i [l [n [_ [_ [_ ->]]]]]]].
    + split; [reflexivity|].
      split; exists []; rewrite app_nil_r; auto.
    + split; [apply upsert_status_lots|].
      unfold upsert_status.
      destruct (fetchone (select_status_ids (lot_id l) (db w))); simpl.
      * split; exists []; rewrite app_nil_r; split; auto.
        rewrite map_map. apply map_ext. intros ps.
        destruct (Z.eqb _ _); reflexivity.
      * split; [exists []; rewrite app_nil_r; auto|].
        eexists. rewrite map_app. split; [reflexivity|]. simpl. lia.
Qed.

(** X13.  Primary keys stay unique: when no two rows of a table share
    their id, the same holds after any use of the reserve view or of the
    admin view's status tab, the id of an inserted row being above every id
    of its table. *)
Theorem run_action_keys_unique a w :
  keys_unique (db w) -> keys_unique (db (run_action a w)).
Proof.
  intros [Hl [Hs Hr]].
  assert (Hfresh : forall (row : Type) (rowid : row -> Z) (mk : Z -> row)
                     (t : table row),
             (forall i, rowid (mk i) = i) ->
             NoDup (map rowid (rows t)) ->
             NoDup (map rowid (rows (insert_row rowid mk t)))).
  { intros row rowid mk t Hmk Hnd. unfold insert_row. simpl.
    rewrite map_app. simpl. rewrite Hmk. apply NoDup_app; auto.
    - constructor; [simpl; tauto|constructor].
    - intros i Hi [<-|[]]. apply in_map_iff in Hi.
      destruct Hi as [r [Heq Hin]].
      pose proof (next_rowid_fresh rowid t r Hin). lia. }
  destruct a as [el c s er|el p c eu]; simpl.
  - destruct (reserve_view_db el c s er w) as [->|[l [form [_ [_ ->]]]]];
      [repeat split; assumption|].
    unfold keys_unique, reserved, increment_occupied, insert_reservation.
    cbn [parking_lots parking_status reservations set_parking_status
         set_reservations].
    split; [exact Hl|]. split.
    + cbn [update_rows rows]. rewrite map_map.
      erewrite map_ext; [exact Hs|].
      intros ps. simpl. destruct (Z.eqb _ _); reflexivity.
    + apply Hfresh; [reflexivity|exact Hr].
  - destruct (admin_view_db el p c eu w)
      as [->|[i [l [n [_ [_ [_ ->]]]]]]];
      [repeat split; assumption|].
    unfold keys_unique. rewrite upsert_status_lots.
    split; [exact Hl|]. unfold upsert_status.
    destruct (fetchone (select_status_ids (lot_id l) (db w)));
      unfold update_status, insert_status;
      cbn [parking_status reservations set_parking_status].
    + split; [|exact Hr]. cbn [update_rows rows]. rewrite map_map.
      erewrite map_ext; [exact Hs|].
      intros ps. simpl. destruct (Z.eqb _ _); reflexivity.
    + split; [|exact Hr]. apply Hfresh; [reflexivity|exact Hs].
Qed.

Lemma run_action_keys_unique_witness :
  keys_unique
    (db (run_action
           (Reserve (no_fault 10) 2 (Some sample_form) (no_fault 11))
           stocked)).
Proof.
  apply run_action_keys_unique.
  repeat split; apply distinct_NoDup; vm_compute; reflexivity.
Defined.

(** ** The map and the reserve view *)

(** A number above 20 is above 0, also when it is a float. *)
Lemma py_gt_20_0 a : py_gt a 20 = true -> py_gt a 0 = true.
Proof.
  destruct a as [z|f]; simpl.
  - rewrite !Z.gtb_ltb, !Z.ltb_lt. lia.
  - rewrite !ltb_spec.
    replace (Prim2SF (float_of_int 20))
      with (S754_finite false 5629499534213120 (-48)) by reflexivity.
    replace (Prim2SF (float_of_int 0)) with (S754_zero false) by reflexivity.
    destruct (Prim2SF f) as [s|s| |s m e]; try discriminate.
    + destruct s; [discriminate|reflexivity].
    + destruct s; [discriminate|reflexivity].
Qed.

(** X14.  The map and the reserve view agree on every listed lot: the
    lot's row is among the plotted ones, and it is labelled "Full" exactly
    when the reserve view refuses the lot; with any other label a submitted
    form that meets no storage fault is confirmed, when the lot's id fits
    in 64 bits and a rowid is left for the reservation. *)
Theorem map_agrees_with_reserve_view t choice w l :
  st_selectbox (lots_view t (db w)) choice = Some l ->
  In (map_row l) (fst (show_parking_map (no_fault t) w)) /\
  (mp_Status (map_row l) = "🔴 Full" ->
   forall submitted e_res,
     reserve_view (no_fault t) choice submitted e_res w =
     (inr tt,
      {| db := db w;
         ui := ui w ++ [st_error_ev "No available spots in this lot"] |})) /\
  (mp_Status (map_row l) <> "🔴 Full" ->
   in_int64 (lot_id l) = true ->
   rowid_available rs_id (reservations (db w)) = true ->
   forall form t2,
     reserve_view (no_fault t) choice (Some form) (no_fault t2) w =
     (inr tt,
      {| db := reserved (lot_id l) form t2 (db w);
         ui := ui w ++ [st_success_ev "Reservation confirmed!"] |})).
Proof.
  intros Hsel. split; [|split].
  - unfold show_parking_map, bind, ret.
    rewrite get_parking_lots_no_fault. simpl. apply in_map.
    apply st_selectbox_In in Hsel. exact Hsel.
  - intros Hfull submitted e_res.
    apply (reserve_view_rejected t choice submitted e_res w l Hsel).
    unfold available. revert Hfull. unfold map_row. cbn [mp_Status].
    destruct (py_gt (py_sub (lot_capacity l) (lot_occupied l)) 20);
      [discriminate|].
    destruct (py_gt (py_sub (lot_capacity l) (lot_occupied l)) 0);
      [discriminate|reflexivity].
  - intros Hnot Hid Hrow form t2.
    apply (reserve_view_confirmed t t2 choice form w l Hsel);
      [|exact Hid|exact Hrow].
    unfold available. revert Hnot. unfold map_row. cbn [mp_Status].
    destruct (py_gt (py_sub (lot_capacity l) (lot_occupied l)) 20) eqn:E20.
    + intros _. apply py_gt_20_0. exact E20.
    + destruct (py_gt (py_sub (lot_capacity l) (lot_occupied l)) 0).
      * reflexivity.
      * intros H. exfalso. apply H. reflexivity.
Qed.

Lemma map_agrees_with_reserve_view_witness :
  reserve_view (no_fault 10) 3 None (no_fault 11) student_union_full =
  (inr tt,
   {| db := db student_union_full;
      ui := ui student_union_full
            ++ [st_error_ev "No available spots in this lot"] |}).
Proof.
  assert (Hsel : st_selectbox (lots_view 10 (db student_union_full)) 3
                 = Some {| lot_id := 3; lot_name := "Student Union Lot";
                           lot_capacity := 40; lot_rate := "1.00/hr";
                           lot_location := "Next to Student Center";
                           lot_coords := (37.7735%float, (-122.4210)%float);
                           lot_special := Some "Student Permits";
                           lot_occupied := Int 40; lot_last_updated := 4 |})
    by (vm_compute; reflexivity).
  apply (proj1 (proj2 (map_agrees_with_reserve_view 10 3 student_union_full
                         _ Hsel))).
  vm_compute. reflexivity.
Defined.

(** ** Showing a detection *)

Section DetectionFacts.

Variables image ndarray : Type.
Variable load_img : string -> Z * Z -> Exc image.
Variable img_to_array : image -> ndarray.
Variable expand_dims : ndarray -> Z -> ndarray.
Variable percent : float -> string.

Lemma classify_parking_spot_cases img_path model w :
  let r := classify_parking_spot image ndarray load_img img_to_array
             expand_dims img_path model w in
  (exists img m score rest_of_row rest,
     load_img img_path (180, 180) = inr img /\ model = Some m /\
     m (expand_dims (img_to_array img) 0)
       = inr ((score :: rest_of_row) :: rest) /\
     r = ((if PrimFloat.ltb 0.5 score then "Occupied" else "Empty", score),
          w)) \/
  (exists e,
     r = (("Error", 0%float),
          {| db := db w;
             ui := ui w ++ [st_error_ev ("Error classifying image: " ++ e)] |})).
Proof.
  unfold classify_parking_spot, try_except, ebind, predict, getitem,
    bind, st_error, ret.
  destruct (load_img img_path (180, 180)) as [e|img] eqn:Himg;
    [right; exists e; reflexivity|].
  destruct model as [m|]; [|right; eexists; reflexivity].
  destruct (m (expand_dims (img_to_array img) 0)) as [e|preds] eqn:Hm;
    [right; exists e; reflexivity|].
  destruct preds as [|[|score rest_of_row] rest]; simpl;
    [right; eexists; reflexivity|right; eexists; reflexivity|].
  left. exists img, m, score, rest_of_row, rest. auto.
Qed.

(** X15.  For every path and model, [classify_parking_spot] returns and
    never writes to the database.  It answers "Occupied" or "Empty" with the
    score and shows nothing exactly when the picture decoded, a model was
    there and its prediction had a first entry; in every other case, an
    empty prediction included, the answer is ("Error", 0.0) after one
    "Error classifying image" message. *)
Theorem classify_parking_spot_outcomes img_path model w :
  let r := classify_parking_spot image ndarray load_img img_to_array
             expand_dims img_path model w in
  db (snd r) = db w /\
  ((exists score,
      fst r = (if PrimFloat.ltb 0.5 score then "Occupied" else "Empty", score)
      /\ snd r = w) \/
   (exists e,
      fst r = ("Error", 0%float) /\
      ui (snd r) =
        (ui w ++ [st_error_ev ("Error classifying image: " ++ e)])%list)) /\
  (forall m,
     model = Some m ->
     (forall x, m x = inr [] \/ exists rest, m x = inr ([] :: rest)) ->
     fst r = ("Error", 0%float)).
Proof.
  intros r. split; [|split].
  - destruct (classify_parking_spot_cases img_path model w)
      as [[img [m [score [rr [rest [_ [_ [_ H]]]]]]]]|[e H]];
      fold r in H; rewrite H; reflexivity.
  - destruct (classify_parking_spot_cases img_path model w)
      as [[img [m [score [rr [rest [_ [_ [_ H]]]]]]]]|[e H]];
      fold r in H; rewrite H.
    + left. exists score. auto.
    + right. exists e. auto.
  - intros m -> Hempty.
    destruct (classify_parking_spot_cases img_path (Some m) w)
      as [[img [m' [score [rr [rest [_ [Hm [Hpred _]]]]]]]]|[e H]].
    + injection Hm as <-.
      destruct (Hempty (expand_dims (img_to_array img) 0))
        as [H|[rest' H]]; congruence.
    + fold r in H. rewrite H. reflexivity.
Qed.

(** X16.  The pages show a failed detection as an empty spot: when the
    model is missing or the upload does not decode, "Detection Results"
    consist of the classifier's error message followed by a success box
    "Empty" with the confidence of 0.0, and never of an "Occupied" box. *)
Theorem show_detection_of_failure image_path model w :
  model = None \/ (exists e, load_img image_path (180, 180) = inl e) ->
  exists e,
    show_detection image ndarray load_img img_to_array expand_dims percent
      image_path model w
    = (tt,
       {| db := db w;
          ui := ui w ++
                [st_error_ev ("Error classifying image: " ++ e);
                 st_success_ev
                   ("🅿️ Empty (" ++ percent 0%float ++ "% confidence)")] |}).
Proof.
  intros Hfail. unfold show_detection, bind.
  destruct (classify_parking_spot_cases image_path model w)
    as [[img [m [score [rr [rest [Himg [Hm _]]]]]]]|[e H]].
  - exfalso. destruct Hfail as [->|[e He]]; congruence.
  - cbv zeta in H. rewrite H. exists e. unfold st_success. simpl.
    rewrite <- app_assoc. reflexivity.
Qed.

(** X17.  "Detection Results" show an "Occupied" box, and nothing else,
    exactly for a decoded picture whose score is above 0.5; at or below 0.5
    they show the "Empty" box. *)
Theorem show_detection_of_score image_path m img score rest_of_row rest w :
  load_img image_path (180, 180) = inr img ->
  m (expand_dims (img_to_array img) 0)
    = inr ((score :: rest_of_row) :: rest) ->
  show_detection image ndarray load_img img_to_array expand_dims percent
    image_path (Some m) w
  = (tt,
     {| db := db w;
        ui := ui w ++
              [if PrimFloat.ltb 0.5 score
               then st_error_ev
                      ("🚗 Occupied (" ++ percent score ++ "% confidence)")
               else st_success_ev
                      ("🅿️ Empty (" ++ percent score ++ "% confidence)")] |}).
Proof.
  intros Himg Hm. unfold show_detection, bind.
  destruct (classify_parking_spot_cases image_path (Some m) w)
    as [[img' [m' [score' [rr [rest' [Himg' [Hm' [Hpred H]]]]]]]]|[e H]].
  - injection Hm' as <-. rewrite Himg in Himg'. injection Himg' as <-.
    rewrite Hm in Hpred. injection Hpred as <- <- <-.
    cbv zeta in H. rewrite H.
    destruct (PrimFloat.ltb 0.5 score); reflexivity.
  - exfalso. cbv zeta in H. revert H.
    unfold classify_parking_spot, try_except, ebind, predict, getitem.
    rewrite Himg, Hm. simpl. unfold ret.
    destruct (PrimFloat.ltb 0.5 score); intros H; discriminate H.
Qed.

End DetectionFacts.

Lemma show_detection_of_failure_witness :
  exists e,
    ui (snd (show_detection string string stub_load_img (fun x => x)
               (fun x _ => x) (fun _ => "0.0") "blob"
               (Some (stub_model 0.9)) fresh_world))
    = [st_error_ev ("Error classifying image: " ++ e);
       st_success_ev "🅿️ Empty (0.0% confidence)"].
Proof.
  destruct (show_detection_of_failure string string stub_load_img
              (fun x => x) (fun x _ => x) (fun _ => "0.0") "blob"
              (Some (stub_model 0.9)) fresh_world
              (or_intror (ex_intro _ "UnidentifiedImageError" eq_refl)))
    as [e He].
  exists e. rewrite He. reflexivity.
Defined.

Lemma show_detection_of_score_witness :
  ui (snd (show_detection string string stub_load_img (fun x => x)
             (fun x _ => x) (fun _ => "90.0") "spot.png"
             (Some (stub_model 0.9)) fresh_world))
  = [st_error_ev "🚗 Occupied (90.0% confidence)"].
Proof.
  exact (f_equal (fun r => ui (snd r))
           (show_detection_of_score string string stub_load_img (fun x => x)
              (fun x _ => x) (fun _ => "90.0") "spot.png" (stub_model 0.9)
              "spot.png" 0.9%float [] [] fresh_world eq_refl eq_refl)).
Defined.

(** ** One status row per lot *)

Lemma run_action_well_formed a w :
  well_formed (db w) -> well_formed (db (run_action a w)).
Proof.
  intros [Hl Hs]. destruct a as [el c s er|el p c eu]; simpl.
  - destruct (reserve_view_db el c s er w) as [->|[l [form [_ [_ ->]]]]];
      [split; assumption|].
    split; simpl; [exact Hl|].
    rewrite map_map. erewrite map_ext; [exact Hs|].
    intros ps. simpl. destruct (Z.eqb _ _); reflexivity.
  - destruct (admin_view_db el p c eu w)
      as [->|[i [l [n [_ [_ [_ ->]]]]]]];
      [split; assumption|].
    unfold well_formed. rewrite upsert_status_lots. split; [exact Hl|].
    unfold upsert_status.
    destruct (fetchone (select_status_ids (lot_id l) (db w))) eqn:E; simpl.
    + rewrite map_map. erewrite map_ext; [exact Hs|].
      intros ps. simpl. destruct (Z.eqb _ _); reflexivity.
    + apply fetchone_select_status_ids in E. rewrite status_rows_of_nil in E.
      rewrite map_app. simpl. apply NoDup_app; auto.
      * constructor; [simpl; tauto|constructor].
      * intros x Hx [<-|[]]. apply in_map_iff in Hx.
        destruct Hx as [ps [Hid Hps]]. exact (E ps Hps Hid).
Qed.

(** X18.  Uses of the reserve view and of the admin view's status tab, in
    any number and order and under any faults, never give a lot a second
    status row: starting with unique lot ids and at most one status row per
    lot, every later listing shows each stored lot exactly once. *)
Theorem listing_stays_one_per_lot acts : forall w,
  well_formed (db w) ->
  Forall (fun w' =>
            well_formed (db w') /\
            forall now,
              Permutation (map lot_id (lots_view now (db w')))
                (map pl_id (rows (parking_lots (db w)))))
    (states_after acts w).
Proof.
  induction acts as [|a acts IH]; intros w Hwf; simpl; [constructor|].
  pose proof (run_action_well_formed a w Hwf) as Hwf'.
  pose proof (run_action_lots a w) as Hlots.
  constructor.
  - split; [exact Hwf'|]. intros now. rewrite <- Hlots.
    apply lots_view_ids. apply Hwf'.
  - specialize (IH (run_action a w) Hwf'). rewrite Hlots in IH. exact IH.
Qed.

Lemma listing_stays_one_per_lot_witness :
  Forall (fun w' =>
            well_formed (db w') /\
            forall now,
              Permutation (map lot_id (lots_view now (db w')))
                (map pl_id (rows (parking_lots (db stocked)))))
    (states_after
       [ Reserve (no_fault 10) 2 (Some sample_form) (no_fault 11);
         SetOccupied (no_fault 12) "campus123" (Some (0%nat, 100))
           (no_fault 13) ]
       stocked).
Proof.
  apply listing_stays_one_per_lot.
  apply well_formedb_spec. vm_compute. reflexivity.
Defined.

(** X19.  [update_parking_status] is all or nothing as well.  For a lot
    id and a number that fit in 64 bits: under a fault that hits the
    connection or one of its three statements (the [SELECT], the write, the
    commit), and also when a row has to be inserted and no rowid is left,
    it returns [False], shows exactly one error (the fault's, when the
    write can go through) and leaves the database as it was; otherwise it
    returns [True], shows nothing, and touches neither the lots nor the
    reservations.  When one of the two integers does not fit the call
    never returns [True] and writes nothing; with no fault it raises
    [OverflowError]. *)
Theorem update_parking_status_all_or_nothing e lid n w :
  let r := update_parking_status e lid n w in
  (in_int64 lid && in_int64 n = true -> fault_hits 3 (env_fault e) = true ->
   fst r = inr false /\ db (snd r) = db w /\
   exists msg, ui (snd r) = (ui w ++ [st_error_ev msg])%list /\
     (update_writes lid n (db w) = true ->
      msg = fault_message "Error updating parking status: " (env_fault e))) /\
  (in_int64 lid && in_int64 n = true -> fault_hits 3 (env_fault e) = false ->
   update_writes lid n (db w) = false ->
   fst r = inr false /\ db (snd r) = db w /\
   ui (snd r) =
     (ui w ++ [st_error_ev
                 "Error updating parking status: database or disk is full"])%list) /\
  (fault_hits 3 (env_fault e) = false -> update_writes lid n (db w) = true ->
   fst r = inr true /\ ui (snd r) = ui w /\
   db (snd r) = upsert_status lid n (env_now e) (db w) /\
   parking_lots (db (snd r)) = parking_lots (db w) /\
   reservations (db (snd r)) = reservations (db w)) /\
  (in_int64 lid && in_int64 n = false ->
   fst r <> inr true /\ db (snd r) = db w /\
   (env_fault e = NoFault -> r = (inl "OverflowError", w))).
Proof.
  destruct e as [[|err|[|[|[|k]]] err] now];
    unfold update_parking_status, upsert_status, update_writes,
      has_status_row, fetchone, select_status_ids; run_call;
    destruct (in_int64 lid); simpl;
    destruct (in_int64 n); simpl;
    destruct (status_rows_of lid (db w)); simpl;
    try (destruct (rowid_available ps_id (parking_status (db w))); simpl);
    repeat split; intros; try reflexivity; try discriminate;
    eexists; (split; [reflexivity|]); intros; try reflexivity;
    discriminate.
Qed.

Lemma update_parking_status_all_or_nothing_witness :
  fst (update_parking_status (locked 5) 1 25 stocked) = inr false /\
  db (snd (update_parking_status (locked 5) 1 25 stocked)) = db stocked /\
  fst (update_parking_status (no_fault 5) 1 25 stocked) = inr true /\
  update_parking_status (no_fault 5) 1 (2 ^ 63) stocked
  = (inl "OverflowError", stocked).
Proof.
  pose proof (update_parking_status_all_or_nothing (locked 5) 1 25 stocked)
    as Hlocked.
  pose proof (update_parking_status_all_or_nothing (no_fault 5) 1 25 stocked)
    as Hok.
  pose proof (update_parking_status_all_or_nothing (no_fault 5) 1 (2 ^ 63)
                stocked) as Hbig.
  cbv zeta in Hlocked, Hok, Hbig.
  destruct Hlocked as [Hlocked _].
  destruct (Hlocked eq_refl eq_refl) as [H1 [H2 _]].
  destruct Hok as [_ [_ [Hok _]]].
  destruct (Hok eq_refl eq_refl) as [H3 _].
  destruct Hbig as [_ [_ [_ Hbig]]].
  destruct (Hbig eq_refl) as [_ [_ H4]].
  split; [exact H1|]. split; [exact H2|]. split; [exact H3|].
  exact (H4 eq_refl).
Defined.
